(** * game-blocks: block programs, their validator, the sequential runtime
      and the maze adapter

    A shallow embedding of
      - [core/compiler/ast.ts]       (module [Ast]),
      - [core/compiler/validate.ts]  (module [Validate]),
      - [core/runtime/runtime.ts]    (module [Runtime]),
      - [apps/maze/mazeApp.ts]       (module [Maze]),
    followed by the properties proved about them.

    Numbers.  The numeric fields of the AST are TypeScript [number]s and
    are modelled as rationals ([Q]), so that [Math.floor], [Math.abs] and the
    loop bounds act on fractions as they do in the source; NaN and the
    infinities are outside the model.  Grid coordinates and level ids are
    integers ([Z]): the level data is integral and a move adds or subtracts
    one. *)

From Stdlib Require Import List ZArith QArith Qround Qabs String Bool Arith Lia.
From Stdlib Require Import DecimalString.
Import ListNotations.

Local Close Scope Q_scope.
Local Open Scope string_scope.
Local Open Scope list_scope.
Local Open Scope nat_scope.

(** A thrown JavaScript [Error]: only its message is observed. *)
Inductive JsError : Type :=
| MkError (message : string).

(* ================================================================== *)
(** ** core/compiler/ast.ts *)

Module Ast.

Inductive TurnDirection : Type :=
| left
| right.

(** [Op = StartOp | MoveOp | TurnOp | RepeatOp | WaitOp]; the [kind] tag is
    the constructor, the last argument is always [blockId]. *)
#[warnings="-register-all"]
Inductive Op : Type :=
| Start (blockId : string)
| Move (steps : Q) (blockId : string)
| Turn (direction : TurnDirection) (blockId : string)
| Repeat (times : Q) (body : list Op) (blockId : string)
| Wait (ms : Q) (blockId : string).

Record Program : Type := mkProgram { ops : list Op }.

Definition blockId (op : Op) : string :=
  match op with
  | Start b | Move _ b | Turn _ b | Repeat _ _ b | Wait _ b => b
  end.

Definition isStart (op : Op) : bool :=
  match op with Start _ => true | _ => false end.

(** Induction over the op tree: a [Repeat] node gives the property for
    every op of its body. *)
Section OpInduction.
Variable P : Op -> Prop.
Hypothesis HStart : forall b, P (Start b).
Hypothesis HMove : forall n b, P (Move n b).
Hypothesis HTurn : forall d b, P (Turn d b).
Hypothesis HWait : forall ms b, P (Wait ms b).
Hypothesis HRepeat :
  forall t body b, Forall P body -> P (Repeat t body b).

Fixpoint Op_tree_ind (op : Op) : P op :=
  match op with
  | Start b => HStart b
  | Move n b => HMove n b
  | Turn d b => HTurn d b
  | Wait ms b => HWait ms b
  | Repeat t body b =>
      HRepeat t body b
        ((fix all (l : list Op) : Forall P l :=
            match l with
            | [] => Forall_nil P
            | o :: l' => Forall_cons o (Op_tree_ind o) (all l')
            end) body)
  end.
End OpInduction.

End Ast.

(* ================================================================== *)
(** ** core/compiler/validate.ts *)

Module Validate.
Import Ast.

Definition MAX_OPS : nat := 200.

(** [countOps]: one per op of the list, plus the count of the body of each
    repeat.  [countOpsWith] is the [for] loop; the recursive call on
    [op.body] goes through [countOp]. *)
Definition countOpsWith (countOp : Op -> nat) : list Op -> nat :=
  fix loop (ops : list Op) : nat :=
    match ops with
    | [] => 0
    | op :: rest => countOp op + loop rest
    end.

Fixpoint countOp (op : Op) : nat :=
  match op with
  | Repeat _ body _ => 1 + countOpsWith countOp body
  | _ => 1
  end.

Definition countOps (ops : list Op) : nat := countOpsWith countOp ops.

(** A [void] function that may throw. *)
Inductive Checked : Type :=
| Passes
| Throws (e : JsError).

Definition emptyProgramError : JsError :=
  MkError "El programa está vacío.".
Definition mustStartError : JsError :=
  MkError "El programa debe empezar con start.".
Definition tooLongError : JsError :=
  MkError "Programa demasiado largo (máximo 200 ops).".

Definition validateProgram (program : Program) : Checked :=
  match ops program with
  | [] => Throws emptyProgramError
  | op0 :: _ =>
      if negb (isStart op0) then Throws mustStartError
      else if MAX_OPS <? countOps (ops program) then Throws tooLongError
      else Passes
  end.

(** Programs used to exercise the ceiling: a start op followed by [n]
    one-step moves, and a start op followed by a repeat nested [d] deep
    around a single move. *)
Definition flatProgram (n : nat) : Program :=
  mkProgram (Start "s" :: repeat (Move 1 "m") n).

Fixpoint nest (d : nat) : Op :=
  match d with
  | O => Move 1 "m"
  | S d' => Repeat (2 # 1) [nest d'] "r"
  end.

Definition nestedProgram (d : nat) : Program :=
  mkProgram [Start "s"; nest d].

(** Three ops: a start op and one move repeated [n] times. *)
Definition repeatedMove (n : nat) : Program :=
  mkProgram
    [Start "s"; Repeat (inject_Z (Z.of_nat n)) [Move 1 "m"] "r"].

End Validate.

(* ================================================================== *)
(** ** core/runtime/runtime.ts *)

Module Runtime.
Import Ast.

(** Result of [adapter.applyOp(op, state)].  The adapter may mutate the
    state object in place before it throws, so a throw carries the contents
    of the state object at the time of the throw. *)
Inductive Outcome (AppState : Type) : Type :=
| Returned (s : AppState)
| Thrown (e : JsError) (s : AppState).
Arguments Returned {AppState} s.
Arguments Thrown {AppState} e s.

Definition outcome_state {AppState} (o : Outcome AppState) : AppState :=
  match o with Returned s | Thrown _ s => s end.

Record RuntimeAdapter (AppState : Type) : Type := mkAdapter {
  applyOp : Op -> AppState -> Outcome AppState;
  reset : AppState -> AppState
}.
Arguments applyOp {AppState} _ _ _.
Arguments reset {AppState} _ _.

(** What the run does to its surroundings, in the order it does it: the
    four hooks of [RuntimeHooks] (an event stands for the call of the hook
    when the caller supplied one; a hook only observes, it does not call
    back into the controller), the calls of [adapter.applyOp], and the
    timers of [window]. *)
Inductive Event : Type :=
| OnStep (blockId : string)
| OnStatus (text : string)
| OnDone
| OnError (e : JsError)
| ApplyOp (op : Op)
| SetTimeout (id : nat) (ms : Q)
| ClearTimeout (id : nat)
| TimerFired (id : nat).

(** How a piece of an [async] function body ends: it falls through, it
    executes [return], it throws, or it awaits a promise that never
    settles. *)
Inductive Completion : Type :=
| Normal
| Return
| Throw (e : JsError)
| Pending.

Section Run.
Context {AppState : Type}.
Variable adapter : RuntimeAdapter AppState.

(** The variables closed over by [runProgram], the timers of [window]
    ([windowTimers]: set and neither fired nor cleared; [nextTimerId]: the
    id the next [setTimeout] returns), the [sleep] promises already
    resolved, the host's coming decisions ([sched]) and the events so far,
    newest first.

    [sched]: every [await] hands control back to the event loop, and the
    host holds the controller; the n-th element says whether the host
    calls [stop()] during the n-th suspension ([[]]: never again).  A run
    is a function of its schedule, so a statement for every schedule covers
    a host that decides by what it has seen so far. *)
Record RunState : Type := mkRunState {
  running : bool;
  stopped : bool;
  state : AppState;
  pendingTimers : list nat;
  resolved : list nat;
  windowTimers : list nat;
  nextTimerId : nat;
  sched : list bool;
  log : list Event
}.

Definition set_running (b : bool) (rt : RunState) : RunState :=
  mkRunState b (stopped rt) (state rt) (pendingTimers rt) (resolved rt)
    (windowTimers rt) (nextTimerId rt) (sched rt) (log rt).
Definition set_stopped (b : bool) (rt : RunState) : RunState :=
  mkRunState (running rt) b (state rt) (pendingTimers rt) (resolved rt)
    (windowTimers rt) (nextTimerId rt) (sched rt) (log rt).
Definition set_state (s : AppState) (rt : RunState) : RunState :=
  mkRunState (running rt) (stopped rt) s (pendingTimers rt) (resolved rt)
    (windowTimers rt) (nextTimerId rt) (sched rt) (log rt).
Definition set_pendingTimers (l : list nat) (rt : RunState) : RunState :=
  mkRunState (running rt) (stopped rt) (state rt) l (resolved rt)
    (windowTimers rt) (nextTimerId rt) (sched rt) (log rt).
Definition set_resolved (l : list nat) (rt : RunState) : RunState :=
  mkRunState (running rt) (stopped rt) (state rt) (pendingTimers rt) l
    (windowTimers rt) (nextTimerId rt) (sched rt) (log rt).
Definition set_windowTimers (l : list nat) (rt : RunState) : RunState :=
  mkRunState (running rt) (stopped rt) (state rt) (pendingTimers rt)
    (resolved rt) l (nextTimerId rt) (sched rt) (log rt).
Definition set_nextTimerId (n : nat) (rt : RunState) : RunState :=
  mkRunState (running rt) (stopped rt) (state rt) (pendingTimers rt)
    (resolved rt) (windowTimers rt) n (sched rt) (log rt).
Definition set_sched (l : list bool) (rt : RunState) : RunState :=
  mkRunState (running rt) (stopped rt) (state rt) (pendingTimers rt)
    (resolved rt) (windowTimers rt) (nextTimerId rt) l (log rt).

Definition emit (e : Event) (rt : RunState) : RunState :=
  mkRunState (running rt) (stopped rt) (state rt) (pendingTimers rt)
    (resolved rt) (windowTimers rt) (nextTimerId rt) (sched rt)
    (e :: log rt).

(** The events in the order they happened. *)
Definition trace (rt : RunState) : list Event := rev (log rt).

Definition mem (id : nat) (l : list nat) : bool := existsb (Nat.eqb id) l.

(** [l.splice(l.findIndex(t => t.id === id), 1)] when the index is not -1. *)
Fixpoint removeFirst (id : nat) (l : list nat) : list nat :=
  match l with
  | [] => []
  | t :: l' => if Nat.eqb t id then l' else t :: removeFirst id l'
  end.

(** [window.clearTimeout(id)] *)
Definition clearTimeout (id : nat) (rt : RunState) : RunState :=
  emit (ClearTimeout id)
    (set_windowTimers (removeFirst id (windowTimers rt)) rt).

(** [timer.resolve()]: the promise of that [sleep] is resolved. *)
Definition resolve (id : nat) (rt : RunState) : RunState :=
  set_resolved (id :: resolved rt) rt.

Definition clearTimers (rt : RunState) : RunState :=
  set_pendingTimers []
    (fold_left (fun r id => resolve id (clearTimeout id r))
       (pendingTimers rt) rt).

(** [controller.stop()] *)
Definition stop (rt : RunState) : RunState :=
  if negb (running rt) then rt
  else emit (OnStatus "Detenido.")
         (clearTimers (set_running false (set_stopped true rt))).

(** [controller.isRunning()] *)
Definition isRunning (rt : RunState) : bool := running rt.

(** One suspension of the walk: the host takes its next decision. *)
Definition yield (rt : RunState) : RunState :=
  match sched rt with
  | [] => rt
  | b :: rest => if b then stop (set_sched rest rt) else set_sched rest rt
  end.

(** The callback [sleep] hands to [window.setTimeout]. *)
Definition timerCallback (id : nat) (rt : RunState) : RunState :=
  let rt1 :=
    emit (TimerFired id)
      (set_windowTimers (removeFirst id (windowTimers rt)) rt) in
  let rt2 :=
    if mem id (pendingTimers rt1)
    then set_pendingTimers (removeFirst id (pendingTimers rt1)) rt1
    else rt1 in
  resolve id rt2.

(** [await sleep(ms)]: the timer is set and recorded, the walk is
    suspended; when the host has not cleared the timer it fires; the walk
    goes on only once the promise is resolved. *)
Definition sleep (ms : Q) (rt : RunState) : Completion * RunState :=
  let id := nextTimerId rt in
  let rt1 :=
    emit (SetTimeout id ms)
      (set_nextTimerId (S id) (set_windowTimers (windowTimers rt ++ [id]) rt)) in
  let rt2 := set_pendingTimers (pendingTimers rt1 ++ [id]) rt1 in
  let rt3 := yield rt2 in
  let rt4 := if mem id (windowTimers rt3) then timerCallback id rt3 else rt3 in
  if mem id (resolved rt4) then (Normal, rt4) else (Pending, rt4).

(** [state = await adapter.applyOp(op, state)] *)
Definition callApplyOp (op : Op) (rt : RunState) : Completion * RunState :=
  let rt1 := emit (ApplyOp op) rt in
  match applyOp adapter op (state rt1) with
  | Returned s' => (Normal, set_state s' (yield rt1))
  | Thrown e s' => (Throw e, set_state s' rt1)
  end.

(** [await f(...)] for an [async] function [f] whose body ended as [r]:
    a throw is rethrown after the suspension, a [return] or the end of the
    body resolves the promise. *)
Definition awaitCall (r : Completion * RunState) : Completion * RunState :=
  match r with
  | (Throw e, rt) => (Throw e, yield rt)
  | (Pending, rt) => (Pending, rt)
  | (_, rt) => (Normal, yield rt)
  end.

(** Sequencing of two pieces of a function body: the second runs when the
    first falls through. *)
Definition andThen (r : Completion * RunState)
    (k : RunState -> Completion * RunState) : Completion * RunState :=
  match r with
  | (Normal, rt') => k rt'
  | _ => r
  end.

(** [Math.max(0, ms)] *)
Definition maxZero (ms : Q) : Q := if Qle_bool 0 ms then ms else 0%Q.

(** [Math.max(0, Math.floor(op.times))] *)
Definition repeatTimes (times : Q) : nat :=
  Z.to_nat (Z.max 0 (Qfloor times)).

(** [for (let i = 0; i < times; i += 1) { if (stopped) return; await
    runOps(op.body); }] with [n] iterations left. *)
Fixpoint repeatLoop (n : nat) (runBody : RunState -> Completion * RunState)
    (rt : RunState) : Completion * RunState :=
  match n with
  | O => (Normal, rt)
  | S n' =>
      if stopped rt then (Return, rt)
      else andThen (awaitCall (runBody rt)) (repeatLoop n' runBody)
  end.

(** [for (const op of ops) { if (stopped) return; ... }] around the code
    for one op. *)
Definition runOpsWith (runOp : Op -> RunState -> Completion * RunState)
    : list Op -> RunState -> Completion * RunState :=
  fix loop (ops : list Op) (rt : RunState) : Completion * RunState :=
    match ops with
    | [] => (Normal, rt)
    | op :: rest =>
        if stopped rt then (Return, rt)
        else andThen (runOp op rt) (loop rest)
    end.

(** The body of the [for] loop of [runOps] after the [stopped] test. *)
Fixpoint runOp (op : Op) (rt : RunState) : Completion * RunState :=
  let rt1 := emit (OnStep (blockId op)) rt in
  match op with
  | Repeat times body _ =>
      repeatLoop (repeatTimes times) (runOpsWith runOp body) rt1
  | _ =>
      andThen (callApplyOp op rt1)
        (fun rt2 =>
           match op with
           | Wait ms _ => sleep (maxZero ms) rt2
           | _ => (Normal, rt2)
           end)
  end.

Definition runOps (ops : list Op) (rt : RunState) : Completion * RunState :=
  runOpsWith runOp ops rt.

Definition initialRunState (initialState : AppState) (schedule : list bool)
    : RunState :=
  mkRunState true false (reset adapter initialState) [] [] [] 1 schedule [].

(** [runProgram]: the body of [run], up to the end of the walk.  The
    result is the final contents of the closure and everything that
    happened. *)
Definition runProgram (program : Program) (initialState : AppState)
    (schedule : list bool) : RunState :=
  let rt1 := emit (OnStatus "Ejecutando...")
               (initialRunState initialState schedule) in
  match awaitCall (runOps (ops program) rt1) with
  | (Pending, rt) => rt
  | (Throw e, rt) => set_running false (emit (OnError e) rt)
  | (_, rt) =>
      set_running false
        (if stopped rt then rt
         else emit (OnStatus "Finalizado.") (emit OnDone rt))
  end.

End Run.

End Runtime.

(* ================================================================== *)
(** ** What a run is expected to do *)

Module Walk.
Import Ast Runtime.

(** The events of the walk proper: a step notification or a call of the
    adapter. *)
Definition walkEvent (e : Event) : bool :=
  match e with
  | OnStep _ | ApplyOp _ => true
  | _ => false
  end.

Definition walk (evs : list Event) : list Event := filter walkEvent evs.

(** The ops handed to the adapter, in order. *)
Fixpoint applied (evs : list Event) : list Op :=
  match evs with
  | [] => []
  | ApplyOp op :: evs' => op :: applied evs'
  | _ :: evs' => applied evs'
  end.

(** The only events that can follow the status of a stop: a timer set by a
    wait whose adapter call was in flight when the stop came, its firing,
    and the error of a call that was in flight. *)
Definition afterStop (e : Event) : bool :=
  match e with
  | SetTimeout _ _ | TimerFired _ | OnError _ => true
  | _ => false
  end.

(** The events of normal completion and of failure, which the walk itself
    never produces. *)
Definition endEvent (e : Event) : bool :=
  match e with
  | OnDone | OnError _ => true
  | OnStatus text => String.eqb text "Finalizado."
  | _ => false
  end.

Definition is_prefix {A : Type} (l1 l2 : list A) : Prop :=
  exists rest, l2 = l1 ++ rest.

(** Every call of the adapter comes right after the step notification of
    its own op. *)
Definition announced (evs : list Event) : Prop :=
  forall pre op post,
    evs = pre ++ ApplyOp op :: post ->
    exists pre', pre = pre' ++ [OnStep (blockId op)].

Definition startText : string := "Ejecutando...".
Definition doneText : string := "Finalizado.".

(** The depth-first sequence of the AST, as the specification words it:
    every op is announced by [onStep] and then applied; a repeat is
    announced once and stands for [max(0, floor(times))] copies of the
    sequence of its body. *)
Fixpoint unrollOp (op : Op) : list Event :=
  OnStep (blockId op) ::
  match op with
  | Repeat times body _ =>
      List.concat (repeat (flat_map unrollOp body) (repeatTimes times))
  | _ => [ApplyOp op]
  end.

Definition unroll (ops : list Op) : list Event := flat_map unrollOp ops.

Section Adapter.
Context {AppState : Type}.
Variable adapter : RuntimeAdapter AppState.

(** The adapter applied to a sequence of ops, each to the state the one
    before left, up to the first throw. *)
Fixpoint applyAll (s : AppState) (ops : list Op) : Outcome AppState :=
  match ops with
  | [] => Returned s
  | op :: rest =>
      match applyOp adapter op s with
      | Returned s' => applyAll s' rest
      | Thrown e s' => Thrown e s'
      end
  end.

(** [f] run [n] times, one run after the other; a throw, or a promise
    that never settles, ends the sequence. *)
Fixpoint timesInOrder (n : nat)
    (f : RunState (AppState:=AppState) -> Completion * RunState (AppState:=AppState))
    (rt : RunState) : Completion * RunState :=
  match n with
  | O => (Normal, rt)
  | S n' =>
      match f rt with
      | (Normal, rt') | (Return, rt') => timesInOrder n' f rt'
      | r => r
      end
  end.

(** From [rt] to [rt'] nothing of the walk happened: only events that
    are no walk events were added, the adapter state is the same, and a
    stop was not taken back. *)
Definition quiet_ext (rt rt' : RunState (AppState:=AppState)) : Prop :=
  exists evs,
    log rt' = rev evs ++ log rt
    /\ walk evs = []
    /\ state rt' = state rt
    /\ (stopped rt = true -> stopped rt' = true).

(** A piece of the run that started in [rt] and ended as [r] walked
    along [spec]: the walk events it added are a prefix of [spec], all of
    [spec] when it fell through unstopped; it added none when it started
    stopped; it executed [return] only when stopped; it did not stay
    pending; and the adapter state is what the applied ops make of it,
    the last one being the one that threw when the piece threw. *)
Definition walks (spec : list Event) (rt : RunState (AppState:=AppState))
    (r : Completion * RunState (AppState:=AppState)) : Prop :=
  exists evs,
    log (snd r) = rev evs ++ log rt
    /\ (stopped rt = true -> stopped (snd r) = true /\ walk evs = [])
    /\ is_prefix (walk evs) spec
    /\ (fst r = Normal -> stopped (snd r) = false -> walk evs = spec)
    /\ (fst r = Return -> stopped (snd r) = true)
    /\ fst r <> Pending
    /\ match fst r with
       | Throw e =>
           exists pre op noise s,
             evs = pre ++ ApplyOp op :: noise
             /\ walk noise = []
             /\ applyAll (state rt) (applied pre) = Returned s
             /\ applyOp adapter op s = Thrown e (state (snd r))
       | _ => applyAll (state rt) (applied evs) = Returned (state (snd r))
       end.

(** The log of a run that is not stopped holds no status of a stop; the
    log of a stopped run holds exactly one, followed only by [afterStop]
    events, and the run is no longer running. *)
Definition stopText : string := "Detenido.".

Definition stop_discipline (rt : RunState (AppState:=AppState)) : Prop :=
  if stopped rt
  then running rt = false
       /\ exists post pre,
            log rt = post ++ OnStatus stopText :: pre
            /\ forallb afterStop post = true
            /\ ~ In (OnStatus stopText) pre
  else ~ In (OnStatus stopText) (log rt).

(** No event of completion or failure has happened. *)
Definition noEnd (rt : RunState (AppState:=AppState)) : Prop :=
  forallb (fun e => negb (endEvent e)) (log rt) = true.

(** No timer is set and none is recorded. *)
Definition timersIdle (rt : RunState (AppState:=AppState)) : Prop :=
  pendingTimers rt = [] /\ windowTimers rt = [].

(** No stop was requested and none will be. *)
Definition undisturbed (rt : RunState (AppState:=AppState)) : Prop :=
  sched rt = [] /\ stopped rt = false.
End Adapter.

End Walk.

(* ================================================================== *)
(** ** apps/maze/mazeApp.ts *)

Module Maze.
Import Ast Runtime.
Local Open Scope Z_scope.

(** [Direction] of [./levels]: "N", "E", "S", "W". *)
Inductive Direction : Type :=
| DirN
| DirE
| DirS
| DirW.

Definition Direction_eqb (a b : Direction) : bool :=
  match a, b with
  | DirN, DirN | DirE, DirE | DirS, DirS | DirW, DirW => true
  | _, _ => false
  end.

Record Cell : Type := mkCell { cx : Z; cy : Z }.

Record Player : Type := mkPlayer { x : Z; y : Z; dir : Direction }.

Record Constraints : Type := mkConstraints {
  maxBlocks : option Z;
  mustUseRepeat : option bool
}.

(** [MazeLevel] of [./levels], with the fields this file reads. *)
Record MazeLevel : Type := mkLevel {
  id : Z;
  title : string;
  gridW : Z;
  gridH : Z;
  start : Player;
  goal : Cell;
  walls : list Cell;
  constraints : option Constraints
}.

Inductive MazeStatus : Type :=
| idle
| running
| win
| error.

Record MazeState : Type := mkState {
  levelId : Z;
  player : Player;
  status : MazeStatus;
  message : option string
}.

Definition set_levelId (l : Z) (s : MazeState) : MazeState :=
  mkState l (player s) (status s) (message s).
Definition set_player (p : Player) (s : MazeState) : MazeState :=
  mkState (levelId s) p (status s) (message s).
Definition set_status (st : MazeStatus) (s : MazeState) : MazeState :=
  mkState (levelId s) (player s) st (message s).
Definition set_message (m : option string) (s : MazeState) : MazeState :=
  mkState (levelId s) (player s) (status s) m.
Definition set_dir (d : Direction) (p : Player) : Player :=
  mkPlayer (x p) (y p) d.
Definition set_xy (nx ny : Z) (p : Player) : Player :=
  mkPlayer nx ny (dir p).

Definition DIR_ORDER : list Direction := [DirN; DirE; DirS; DirW].

Definition DIR_DELTAS (d : Direction) : Cell :=
  match d with
  | DirN => mkCell 0 (-1)
  | DirE => mkCell 1 0
  | DirS => mkCell 0 1
  | DirW => mkCell (-1) 0
  end.

(** [l.indexOf(d)]: the first index holding [d], -1 when there is none. *)
Fixpoint indexOf (d : Direction) (l : list Direction) : Z :=
  match l with
  | [] => -1
  | d' :: l' =>
      if Direction_eqb d' d then 0
      else let i := indexOf d l' in if i <? 0 then -1 else i + 1
  end.

(** [DIR_ORDER[i]]; every index computed below is in range, where the
    default is not used. *)
Definition dirAt (i : Z) (default : Direction) : Direction :=
  nth (Z.to_nat i) DIR_ORDER default.

Definition turnLeft (d : Direction) : Direction :=
  let index := indexOf d DIR_ORDER in
  dirAt ((index + 3) mod Z.of_nat (List.length DIR_ORDER)) d.

Definition turnRight (d : Direction) : Direction :=
  let index := indexOf d DIR_ORDER in
  dirAt ((index + 1) mod Z.of_nat (List.length DIR_ORDER)) d.

Definition isBlocked (level : MazeLevel) (px py : Z) : bool :=
  existsb (fun wall => (cx wall =? px) && (cy wall =? py)) (walls level).

Definition inBounds (level : MazeLevel) (px py : Z) : bool :=
  (px >=? 0) && (py >=? 0) && (px <? gridW level) && (py <? gridH level).

(** How often the body of [for (let i = 0; i < steps; i += 1)] runs: the
    least integer that is not below [steps]. *)
Definition loopCount (steps : Q) : nat := Z.to_nat (Qceiling steps).

(** What [deserializeState] reads: [raw as Partial<MazeState>], where the
    code also tests the fields of [player]. *)
Record RawPlayer : Type := mkRawPlayer {
  rawX : option Z;
  rawY : option Z;
  rawDir : option Direction
}.

Record RawState : Type := mkRawState {
  rawLevelId : option Z;
  rawPlayer : option RawPlayer;
  rawStatus : option MazeStatus;
  rawMessage : option string
}.

(** [raw: unknown]: a falsy value or a value that is not an object, or an
    object read as [Partial<MazeState>]. *)
Inductive Raw : Type :=
| NotAnObject
| RawObject (record : RawState).

Section Levels.
(** [levels] of [./levels], a list that is not empty: [levels[0]] is
    [level0]. *)
Variable level0 : MazeLevel.
Variable moreLevels : list MazeLevel.

Definition levels : list MazeLevel := level0 :: moreLevels.

Definition getLevel (lid : Z) : MazeLevel :=
  match find (fun level => id level =? lid) levels with
  | Some level => level
  | None => level0
  end.

Definition makeInitialState (lid : Z) : MazeState :=
  let level := getLevel lid in
  mkState (id level) (start level) idle None.

(** The [for] loop of the move branch, with [n] iterations left.  A throw
    leaves in the state what was written before it.  Coordinates are whole
    numbers, and [+] is the sum of the code as long as it stays within
    2^53 in absolute value, where the numbers of the code add exactly. *)
Fixpoint moveLoop (level : MazeLevel) (delta : Cell) (sign : Z) (n : nat)
    (state : MazeState) : Outcome MazeState :=
  match n with
  | O => Returned state
  | S n' =>
      let nextX := x (player state) + cx delta * sign in
      let nextY := y (player state) + cy delta * sign in
      if negb (inBounds level nextX nextY) || isBlocked level nextX nextY
      then Thrown (MkError "CHOQUE")
             (set_message (Some "¡Choque!") (set_status error state))
      else
        let state1 := set_player (set_xy nextX nextY (player state)) state in
        if (x (player state1) =? cx (goal level))
           && (y (player state1) =? cy (goal level))
        then Thrown (MkError "WIN")
               (set_message (Some "¡Llegaste!") (set_status win state1))
        else moveLoop level delta sign n' state1
  end.

(** [adapter.applyOp]; [drawMaze] only reads the state. *)
Definition applyOp (op : Op) (state : MazeState) : Outcome MazeState :=
  let level := getLevel (levelId state) in
  match status state with
  | win | error => Returned state
  | _ =>
      match op with
      | Turn direction _ =>
          Returned
            (set_player
               (set_dir
                  (match direction with
                   | left => turnLeft (dir (player state))
                   | right => turnRight (dir (player state))
                   end)
                  (player state))
               state)
      | Move steps _ =>
          let delta := DIR_DELTAS (dir (player state)) in
          let n := loopCount (Qabs steps) in
          let sign := if Qle_bool 0 steps then 1 else -1 in
          moveLoop level delta sign n state
      | Wait _ _ => Returned state
      | _ => Returned state
      end
  end.

(** [adapter.reset] *)
Definition reset (state : MazeState) : MazeState :=
  let next := makeInitialState (levelId state) in
  set_message (message next)
    (set_status (status next)
       (set_player (player next) (set_levelId (levelId next) state))).

Definition adapter : RuntimeAdapter MazeState := mkAdapter _ applyOp reset.

(** [mazeApp.createInitialState] *)
Definition createInitialState : MazeState := makeInitialState 1.

(** [mazeApp.serializeState] *)
Definition serializeState (state : MazeState) : Raw :=
  RawObject
    (mkRawState
       (Some (levelId state))
       (Some (mkRawPlayer (Some (x (player state))) (Some (y (player state)))
                (Some (dir (player state)))))
       (Some (status state))
       (message state)).

(** [mazeApp.deserializeState] *)
Definition deserializeState (raw : Raw) : MazeState :=
  match raw with
  | NotAnObject => makeInitialState 1
  | RawObject record =>
      let level :=
        getLevel (match rawLevelId record with Some l => l | None => 1 end) in
      let state := makeInitialState (id level) in
      let state1 :=
        match rawPlayer record with
        | Some p =>
            match rawX p, rawY p with
            | Some px, Some py =>
                let state' := set_player (set_xy px py (player state)) state in
                match rawDir p with
                | Some d =>
                    if existsb (Direction_eqb d) DIR_ORDER
                    then set_player (set_dir d (player state')) state'
                    else state'
                | None => state'
                end
            | _, _ => state
            end
        | None => state
        end in
      set_message (rawMessage record) (set_status idle state1)
  end.

(** The cell the player stands on is inside the grid and is no wall. *)
Definition onLegalCell (state : MazeState) : Prop :=
  let level := getLevel (levelId state) in
  inBounds level (x (player state)) (y (player state)) = true
  /\ isBlocked level (x (player state)) (y (player state)) = false.

(** The states the adapter reaches from the initial state of a level by
    calls of [applyOp] that return. *)
Inductive reachable (lid : Z) : MazeState -> Prop :=
| reach_init : reachable lid (makeInitialState lid)
| reach_apply op s s' :
    reachable lid s -> applyOp op s = Returned s' -> reachable lid s'.

End Levels.

(** [updateStatusText]: a message that is not empty wins over the text of
    the status. *)
Definition updateStatusText (state : MazeState) : string :=
  match message state with
  | Some (String c m) => String c m
  | _ =>
      match status state with
      | running => "Jugando..."
      | win => "¡Llegaste!"
      | error => "¡Choque!"
      | idle => "Listo."
      end
  end.

(** [ConstraintResult] of [../types]. *)
Record ConstraintResult : Type := mkResult {
  ok : bool;
  resultMessage : option string
}.

(** The filter of [checkConstraints]: helper blocks and the start block do
    not count. *)
Definition countedBlock (type : string) : bool :=
  negb (String.prefix "dropdown_" type)
  && negb (String.prefix "math_" type)
  && negb (String.eqb type "event_whenflagclicked").

(** [String(n)] for an integer. *)
Definition numberToString (n : Z) : string :=
  NilZero.string_of_int (Z.to_int n).

Section LevelRules.
Variable level0 : MazeLevel.
Variable moreLevels : list MazeLevel.

(** [checkConstraints]; the workspace is seen through
    [getAllBlocks(false)], the types of its blocks, [None] when the
    workspace has no such method. *)
Definition checkConstraints (workspace : option (list string))
    (state : MazeState) : ConstraintResult :=
  let level := getLevel level0 moreLevels (levelId state) in
  match constraints level with
  | None => mkResult true None
  | Some c =>
      let workspaceBlocks :=
        match workspace with Some blocks => blocks | None => [] end in
      let blockTypes := filter countedBlock workspaceBlocks in
      let repeatRule :=
        match mustUseRepeat c with
        | Some true =>
            if existsb (fun type => String.eqb type "game_repeat") blockTypes
            then mkResult true None
            else mkResult false (Some "Tenés que usar un bloque de repetir.")
        | _ => mkResult true None
        end in
      match maxBlocks c with
      | Some m =>
          if m <? Z.of_nat (List.length blockTypes)
          then mkResult false
                 (Some ("Usá máximo " ++ numberToString m ++ " bloques.")%string)
          else repeatRule
      | None => repeatRule
      end
  end.

End LevelRules.

(** The level of the end-to-end scenario: a 3 by 3 grid without walls, the
    agent at [(ax, ay)] facing north, the goal at (1,1). *)
Definition emptyGrid (ax ay : Z) : MazeLevel :=
  mkLevel 1 "3x3" 3 3 (mkPlayer ax ay DirN) (mkCell 1 1) [] None.

(** The same grid with both constraints: at most three blocks, and a
    repeat among them. *)
Definition ruledGrid : MazeLevel :=
  mkLevel 1 "3x3" 3 3 (mkPlayer 0 2 DirN) (mkCell 1 1) []
    (Some (mkConstraints (Some 3) (Some true))).

Definition scenarioProgram (b0 b1 b2 b3 : string) : Program :=
  mkProgram [Start b0; Move 1 b1; Turn right b2; Move 1 b3].

(** A program with a repeat of two and a half times and a wait, run on the
    grid with the agent at (0,2): to the end, and with a stop during the
    first wait. *)
Definition turnsProgram : Program :=
  mkProgram
    [Start "s"; Repeat (5 # 2) [Turn left "t"; Wait 100 "w"] "r";
     Turn right "x"].

Definition turnsStart : MazeState := createInitialState (emptyGrid 0 2) [].

Definition turnsRun : RunState :=
  runProgram (adapter (emptyGrid 0 2) []) turnsProgram turnsStart [].

Definition turnsReady (schedule : list bool) : RunState :=
  initialRunState (adapter (emptyGrid 0 2) []) turnsStart schedule.

(** The scenario run from (0,0), with no stop requested. *)
Definition originStart : MazeState := createInitialState (emptyGrid 0 0) [].

Definition originRun : RunState :=
  runProgram (adapter (emptyGrid 0 0) [])
    (scenarioProgram "b0" "b1" "b2" "b3") originStart [].

End Maze.

(* ================================================================== *)
(** ** core/storage/projectStore.ts *)

Module ProjectStore.

(** [localStorage]: the entries in the order [key(i)] enumerates them. *)
Definition Storage : Type := list (string * string).

Definition getItem (key : string) (st : Storage) : option string :=
  match find (fun kv => String.eqb (fst kv) key) st with
  | Some kv => Some (snd kv)
  | None => None
  end.

Definition hasKey (key : string) (st : Storage) : bool :=
  existsb (fun kv => String.eqb (fst kv) key) st.

(** [setItem]: the value of an existing key is replaced where it stands, a
    new key goes to the end. *)
Fixpoint replaceItem (key value : string) (st : Storage) : Storage :=
  match st with
  | [] => []
  | (k, v) :: rest =>
      if String.eqb k key then (k, value) :: rest
      else (k, v) :: replaceItem key value rest
  end.

Definition setItem (key value : string) (st : Storage) : Storage :=
  if hasKey key st then replaceItem key value st else st ++ [(key, value)].

Definition removeItem (key : string) (st : Storage) : Storage :=
  filter (fun kv => negb (String.eqb (fst kv) key)) st.

Definition STORAGE_PREFIX : string := "game-blocks.project.".

Definition storageKey (appId : string) : string :=
  (STORAGE_PREFIX ++ appId)%string.

(** [k.slice(n)] for [n] within the string. *)
Fixpoint slice (n : nat) (k : string) : string :=
  match n, k with
  | O, _ => k
  | S n', String _ k' => slice n' k'
  | S _, EmptyString => EmptyString
  end.

Section Json.
(** [ProjectRecord]; [schemaVersion] is the constant 1 and [appState] is
    [unknown], here of any type. *)
Context {AppStateRaw : Type}.

Record ProjectRecord : Type := mkProject {
  appId : string;
  workspaceXml : string;
  appState : AppStateRaw
}.

(** [JSON.stringify] and [JSON.parse] ([None]: it throws), which are not
    of this repository. *)
Variable stringify : ProjectRecord -> string.
Variable parse : string -> option ProjectRecord.

Definition saveProject (project : ProjectRecord) (st : Storage) : Storage :=
  setItem (storageKey (appId project)) (stringify project) st.

Definition loadProject (app : string) (st : Storage) : option ProjectRecord :=
  match getItem (storageKey app) st with
  | None => None
  | Some EmptyString => None
  | Some raw => parse raw
  end.

Definition clearProject (app : string) (st : Storage) : Storage :=
  removeItem (storageKey app) st.

End Json.

(** [listProjectAppIds]: the loop over [localStorage.key(i)]. *)
Fixpoint listProjectAppIds (st : Storage) : list string :=
  match st with
  | [] => []
  | (k, _) :: rest =>
      if String.prefix STORAGE_PREFIX k
      then slice (String.length STORAGE_PREFIX) k :: listProjectAppIds rest
      else listProjectAppIds rest
  end.

End ProjectStore.

(* ================================================================== *)
(** ** main.ts: the hooks handed to [runProgram] *)

Module Host.
Import Runtime.

(** What the hooks read of [appState]: its optional [status] and
    [message]. *)
Record StateView : Type := mkView {
  viewStatus : option string;
  viewMessage : option string
}.

(** The text [onError] hands to [setStatus]; [appState] is [None] when it
    is not an object. *)
Definition onErrorStatus (e : JsError) (appState : option StateView) : string :=
  let message := match e with MkError m => m end in
  match appState with
  | Some view =>
      match viewStatus view with
      | Some status =>
          if String.eqb status "win"
          then match viewMessage view with
               | Some m => m
               | None => "Ganaste ✅"
               end
          else if String.eqb status "error"
          then match viewMessage view with
               | Some m => m
               | None => ("Error: " ++ message)%string
               end
          else ("Error: " ++ message)%string
      | None => ("Error: " ++ message)%string
      end
  | None => ("Error: " ++ message)%string
  end.

(** The status bar after one event: [onStatus] passes every text on but
    "Finalizado.", [onDone] writes its own, [onError] decides by the state. *)
Definition statusAfter (appState : option StateView) (bar : string)
    (e : Event) : string :=
  match e with
  | OnStatus text => if String.eqb text "Finalizado." then bar else text
  | OnDone => "Finalizado ✅"
  | OnError err => onErrorStatus err appState
  | _ => bar
  end.

(** The status bar after the events of a run; [onError], when it comes, is
    the last event, so it reads the final state. *)
Definition statusBar (appState : option StateView) (evs : list Event)
    : string :=
  fold_left (statusAfter appState) evs "Ejecutando...".

(** The maze state as the hooks see it. *)
Definition statusName (st : Maze.MazeStatus) : string :=
  match st with
  | Maze.idle => "idle"
  | Maze.running => "running"
  | Maze.win => "win"
  | Maze.error => "error"
  end.

Definition mazeView (s : Maze.MazeState) : option StateView :=
  Some (mkView (Some (statusName (Maze.status s))) (Maze.message s)).

End Host.

(* ================================================================== *)
(** * Properties *)

Module ValidateFacts.
Import Ast Validate.

Lemma countOps_cons op rest :
  countOps (op :: rest) = countOp op + countOps rest.
Proof. reflexivity. Qed.

Lemma countOp_Repeat t body b :
  countOp (Repeat t body b) = 1 + countOps body.
Proof. reflexivity. Qed.

Lemma countOps_moves n : countOps (repeat (Move 1 "m") n) = n.
Proof.
  induction n as [|n IH]; [reflexivity|].
  simpl repeat. rewrite countOps_cons, IH. reflexivity.
Qed.

Lemma countOps_flatProgram n : countOps (ops (flatProgram n)) = S n.
Proof.
  unfold flatProgram; simpl ops. rewrite countOps_cons, countOps_moves.
  reflexivity.
Qed.

Lemma countOp_nest d : countOp (nest d) = S d.
Proof.
  induction d as [|d IH]; [reflexivity|].
  simpl nest. rewrite countOp_Repeat, countOps_cons, IH.
  change (countOps []) with 0. lia.
Qed.

Lemma countOps_nestedProgram d : countOps (ops (nestedProgram d)) = S (S d).
Proof.
  unfold nestedProgram; simpl ops.
  rewrite !countOps_cons, countOp_nest.
  change (countOps []) with 0. change (countOp (Start "s")) with 1. lia.
Qed.

(** The three failures, in the order the code tests them. *)
Lemma validate_cases program :
  match ops program with
  | [] => validateProgram program = Throws emptyProgramError
  | op0 :: _ =>
      if isStart op0
      then if countOps (ops program) <=? MAX_OPS
           then validateProgram program = Passes
           else validateProgram program = Throws tooLongError
      else validateProgram program = Throws mustStartError
  end.
Proof.
  unfold validateProgram.
  destruct (ops program) as [|op0 rest] eqn:E; [reflexivity|].
  destruct (isStart op0); simpl negb; cbv iota; [|reflexivity].
  destruct (Nat.leb_spec (countOps (op0 :: rest)) MAX_OPS) as [Hle|Hgt].
  - apply Nat.ltb_ge in Hle. now rewrite Hle.
  - apply Nat.ltb_lt in Hgt. now rewrite Hgt.
Qed.

(** C2: [validateProgram] returns normally exactly when the op list is
    non-empty, starts with a start op and holds at most 200 ops counted
    recursively; otherwise it throws the empty-program, the must-start or the
    too-long error, tested in that order.  A program of exactly 200 ops
    passes and one of 201 fails with the too-long error, whether the ops are
    at top level or nested in repeat bodies. *)
Theorem validate_iff_nonempty_start_bounded :
  (forall program,
      validateProgram program = Passes <->
      (exists op0 rest, ops program = op0 :: rest /\ isStart op0 = true)
      /\ countOps (ops program) <= 200)
  /\ (forall program,
         ops program = [] <->
         validateProgram program = Throws emptyProgramError)
  /\ (forall program,
         (exists op0 rest, ops program = op0 :: rest /\ isStart op0 = false) <->
         validateProgram program = Throws mustStartError)
  /\ (forall program,
         ((exists op0 rest, ops program = op0 :: rest /\ isStart op0 = true)
          /\ 200 < countOps (ops program)) <->
         validateProgram program = Throws tooLongError)
  /\ (countOps (ops (flatProgram 199)) = 200
      /\ validateProgram (flatProgram 199) = Passes)
  /\ (countOps (ops (flatProgram 200)) = 201
      /\ validateProgram (flatProgram 200) = Throws tooLongError)
  /\ (countOps (ops (nestedProgram 198)) = 200
      /\ validateProgram (nestedProgram 198) = Passes)
  /\ (countOps (ops (nestedProgram 199)) = 201
      /\ validateProgram (nestedProgram 199) = Throws tooLongError).
Proof.
  assert (Hgen : forall program,
    (validateProgram program = Passes <->
      (exists op0 rest, ops program = op0 :: rest /\ isStart op0 = true)
      /\ countOps (ops program) <= 200)
    /\ (ops program = [] <->
         validateProgram program = Throws emptyProgramError)
    /\ ((exists op0 rest, ops program = op0 :: rest /\ isStart op0 = false) <->
         validateProgram program = Throws mustStartError)
    /\ (((exists op0 rest, ops program = op0 :: rest /\ isStart op0 = true)
          /\ 200 < countOps (ops program)) <->
         validateProgram program = Throws tooLongError)).
  { intro program. pose proof (validate_cases program) as H.
    change MAX_OPS with 200 in H.
    destruct (ops program) as [|op0 rest] eqn:E;
      [|destruct (isStart op0) eqn:Es;
        [destruct (Nat.leb_spec (countOps (op0 :: rest)) 200) as [Hc|Hc]|]];
      rewrite H; repeat split; intros;
      repeat match goal with
        | K : _ /\ _ |- _ => destruct K
        | K : exists _, _ |- _ => destruct K
        | K : _ :: _ = _ :: _ |- _ => injection K as ? ?; subst
        end;
      try discriminate; try congruence; try lia;
      try (do 2 eexists; split; [reflexivity|assumption]). }
  assert (Hpass : forall program op0 rest,
    ops program = op0 :: rest -> isStart op0 = true ->
    countOps (ops program) <= 200 -> validateProgram program = Passes).
  { intros p o r Ho Hs Hc. apply (proj1 (Hgen p)). eauto. }
  assert (Hlong : forall program op0 rest,
    ops program = op0 :: rest -> isStart op0 = true ->
    200 < countOps (ops program) ->
    validateProgram program = Throws tooLongError).
  { intros p o r Ho Hs Hc.
    destruct (Hgen p) as (_ & _ & _ & H4). apply H4. eauto. }
  split; [intro p; apply (Hgen p)|].
  split; [intro p; apply (Hgen p)|].
  split; [intro p; apply (Hgen p)|].
  split; [intro p; apply (Hgen p)|].
  split; [split; [apply countOps_flatProgram|]|].
  { eapply Hpass; [reflexivity| reflexivity|].
    rewrite countOps_flatProgram; lia. }
  split; [split; [apply countOps_flatProgram|]|].
  { eapply Hlong; [reflexivity| reflexivity|].
    rewrite countOps_flatProgram; lia. }
  split; [split; [apply countOps_nestedProgram|]|].
  { eapply Hpass; [reflexivity| reflexivity|].
    rewrite countOps_nestedProgram; lia. }
  split; [apply countOps_nestedProgram|].
  eapply Hlong; [reflexivity| reflexivity|].
  rewrite countOps_nestedProgram; lia.
Qed.

End ValidateFacts.

(* ------------------------------------------------------------------ *)
(** ** The maze adapter *)

Module MazeFacts.
Import Ast Runtime Maze.
Local Open Scope Z_scope.

Section Levels.
Variable level0 : MazeLevel.
Variable moreLevels : list MazeLevel.

Abbreviation getLevel := (getLevel level0 moreLevels).
Abbreviation applyOp := (applyOp level0 moreLevels).
Abbreviation makeInitialState := (makeInitialState level0 moreLevels).
Abbreviation onLegalCell := (onLegalCell level0 moreLevels).
Abbreviation reachable := (reachable level0 moreLevels).
Abbreviation deserializeState := (deserializeState level0 moreLevels).

(** [find] answers with a level that has the id asked for, so asking
    again for the id of the answer gives the same level; when nothing is
    found the answer is [levels[0]], which is the first level with its own
    id. *)
Lemma getLevel_id (lid : Z) : getLevel (id (getLevel lid)) = getLevel lid.
Proof.
  unfold Maze.getLevel.
  destruct (find (fun level => id level =? lid) (levels level0 moreLevels))
    as [l|] eqn:F.
  - pose proof (find_some _ _ F) as [_ Hid].
    apply Z.eqb_eq in Hid. rewrite Hid, F. reflexivity.
  - unfold levels. simpl find. rewrite Z.eqb_refl. reflexivity.
Qed.

Lemma getLevel_known (lid : Z) :
  (exists level, In level (levels level0 moreLevels) /\ id level = lid) ->
  id (getLevel lid) = lid.
Proof.
  intros (l & Hin & Hid). unfold Maze.getLevel.
  destruct (find (fun level => id level =? lid) (levels level0 moreLevels))
    as [l'|] eqn:F.
  - apply find_some in F. now apply Z.eqb_eq.
  - apply (find_none _ _ F) in Hin. apply Z.eqb_neq in Hin. contradiction.
Qed.

Lemma moveLoop_levelId level delta sign n s :
  levelId (outcome_state (moveLoop level delta sign n s)) = levelId s.
Proof.
  revert s. induction n as [|n IH]; intro s; simpl moveLoop; [reflexivity|].
  destruct (negb _ || _); [reflexivity|].
  destruct (_ && _); [reflexivity|].
  rewrite IH. reflexivity.
Qed.

Lemma applyOp_levelId op s :
  levelId (outcome_state (applyOp op s)) = levelId s.
Proof.
  unfold Maze.applyOp.
  destruct (status s); try reflexivity;
    destruct op; try reflexivity; apply moveLoop_levelId.
Qed.

(** The loop writes a position only after it has tested it. *)
Lemma moveLoop_legal level delta sign n s :
  inBounds level (x (player s)) (y (player s)) = true ->
  isBlocked level (x (player s)) (y (player s)) = false ->
  let s' := outcome_state (moveLoop level delta sign n s) in
  inBounds level (x (player s')) (y (player s')) = true
  /\ isBlocked level (x (player s')) (y (player s')) = false.
Proof.
  revert s. induction n as [|n IH]; intros s Hb Hw; cbv zeta.
  - simpl. now split.
  - simpl moveLoop.
    set (nextX := x (player s) + cx delta * sign).
    set (nextY := y (player s) + cy delta * sign).
    destruct (inBounds level nextX nextY) eqn:Eb;
      [destruct (isBlocked level nextX nextY) eqn:Ew|];
      simpl negb; simpl orb; cbv iota; try (simpl; now split).
    destruct ((nextX =? cx (goal level)) && (nextY =? cy (goal level)));
      [simpl; now split|].
    apply IH; simpl; assumption.
Qed.

Lemma applyOp_legal op s :
  onLegalCell s -> onLegalCell (outcome_state (applyOp op s)).
Proof.
  unfold Maze.onLegalCell. intros [Hb Hw].
  rewrite applyOp_levelId.
  unfold Maze.applyOp.
  destruct (status s); try (now split);
    destruct op; try (now split);
    apply moveLoop_legal; assumption.
Qed.

Lemma reachable_legal lid s :
  onLegalCell (makeInitialState lid) -> reachable lid s -> onLegalCell s.
Proof.
  intros H0 R. induction R as [|op s s' R IH E]; [assumption|].
  pose proof (applyOp_legal op s IH) as H. now rewrite E in H.
Qed.

(** C9: once the status is "win" or "error", [applyOp] returns the state
    it was given, whatever the op, and does not throw. *)
Theorem applyOp_inert_after_win_or_error (op : Op) (s : MazeState) :
  status s = win \/ status s = error -> applyOp op s = Returned s.
Proof.
  intros [H|H]; unfold Maze.applyOp; rewrite H; reflexivity.
Qed.

(** C10: when the start cell of the level is inside the grid and is no
    wall, every state reached from [makeInitialState levelId] by calls of
    [applyOp] that return has the player inside the grid and off the
    walls; and a call that throws from such a state (collision or win)
    leaves the player on such a cell too. *)
Theorem reachable_player_on_legal_cell (lid : Z) (s : MazeState) :
  inBounds (getLevel lid) (x (start (getLevel lid)))
    (y (start (getLevel lid))) = true ->
  isBlocked (getLevel lid) (x (start (getLevel lid)))
    (y (start (getLevel lid))) = false ->
  reachable lid s ->
  onLegalCell s
  /\ (forall op e s', applyOp op s = Thrown e s' -> onLegalCell s').
Proof.
  intros Hb Hw R.
  assert (H0 : onLegalCell (makeInitialState lid)).
  { unfold Maze.onLegalCell, Maze.makeInitialState. simpl levelId.
    simpl player. rewrite getLevel_id. now split. }
  pose proof (reachable_legal lid s H0 R) as Hs.
  split; [assumption|].
  intros op e s' E.
  pose proof (applyOp_legal op s Hs) as H. now rewrite E in H.
Qed.

(** C8, as the code has it: restoring a saved state gives the state back
    with the status set to "idle" and the level id replaced by the id of
    the level [getLevel] answers with; position, direction and message
    come back as saved.  So the state round-trips exactly when its status
    is "idle" and [getLevel] answers its level id with a level of that
    id; and when a level with the id of the state exists, only the status
    is lost. *)
Theorem deserialize_serialize_resets_status (s : MazeState) :
  deserializeState (serializeState s)
  = set_status idle (set_levelId (id (getLevel (levelId s))) s)
  /\ (deserializeState (serializeState s) = s <->
      status s = idle /\ id (getLevel (levelId s)) = levelId s)
  /\ ((exists level,
          In level (levels level0 moreLevels) /\ id level = levelId s) ->
      deserializeState (serializeState s) = set_status idle s).
Proof.
  assert (E : deserializeState (serializeState s)
              = set_status idle (set_levelId (id (getLevel (levelId s))) s)).
  { destruct s as [l [px py d] st m].
    unfold Maze.deserializeState, Maze.serializeState,
      Maze.makeInitialState.
    cbn [rawLevelId rawPlayer rawX rawY rawDir rawMessage
         levelId player status message x y dir].
    rewrite getLevel_id. destruct d; reflexivity. }
  split; [exact E|]. rewrite E. split.
  - destruct s as [l p st m]. unfold set_status, set_levelId. simpl.
    split.
    + intro H. injection H as H1 H2. auto.
    + intros [H1 H2]. simpl in *. congruence.
  - intro K. rewrite (getLevel_known _ K). now destruct s.
Qed.

End Levels.

(** C9 at a state that has won. *)
Lemma applyOp_inert_after_win_or_error_witness :
  applyOp (emptyGrid 0 2) [] (Move 1 "m")
    (mkState 1 (mkPlayer 1 1 DirE) win (Some "¡Llegaste!"))
  = Returned (mkState 1 (mkPlayer 1 1 DirE) win (Some "¡Llegaste!")).
Proof.
  apply (applyOp_inert_after_win_or_error (emptyGrid 0 2) [] (Move 1 "m")).
  left; reflexivity.
Defined.

(** C10 at the state after one step north on the empty grid. *)
Lemma reachable_player_on_legal_cell_witness :
  onLegalCell (emptyGrid 0 2) [] (mkState 1 (mkPlayer 0 1 DirN) idle None)
  /\ (forall op e s',
        applyOp (emptyGrid 0 2) [] op (mkState 1 (mkPlayer 0 1 DirN) idle None)
        = Thrown e s' ->
        onLegalCell (emptyGrid 0 2) [] s').
Proof.
  apply (reachable_player_on_legal_cell (emptyGrid 0 2) [] 1).
  - reflexivity.
  - reflexivity.
  - apply (reach_apply _ _ _ (Move 1 "m") (makeInitialState (emptyGrid 0 2) [] 1)).
    + apply reach_init.
    + reflexivity.
Defined.

(** C8 at a state that has won, on a level that exists: it comes back
    with the status "idle" and is otherwise as saved. *)
Lemma deserialize_serialize_resets_status_witness :
  deserializeState (emptyGrid 0 2) []
    (serializeState (mkState 1 (mkPlayer 1 1 DirE) win (Some "¡Llegaste!")))
  = mkState 1 (mkPlayer 1 1 DirE) idle (Some "¡Llegaste!").
Proof.
  apply (proj2 (proj2 (deserialize_serialize_resets_status (emptyGrid 0 2) []
                         (mkState 1 (mkPlayer 1 1 DirE) win
                            (Some "¡Llegaste!"))))).
  exists (emptyGrid 0 2). split; [now left|reflexivity].
Defined.

(** C8 fails as stated: a state that has won comes back idle. *)
Lemma deserialize_serialize_loses_status :
  deserializeState (emptyGrid 0 2) []
    (serializeState (mkState 1 (mkPlayer 1 1 DirE) win (Some "¡Llegaste!")))
  <> mkState 1 (mkPlayer 1 1 DirE) win (Some "¡Llegaste!").
Proof. vm_compute. discriminate. Qed.

(** C1 fails as stated: north is the direction of decreasing [y], so from
    (0,0) the first move leaves the grid; the adapter throws the collision
    sentinel, the status is "error" and the agent has not moved. *)
Lemma scenario_from_origin_collides :
  applyOp (emptyGrid 0 0) [] (Move 1 "b1") originStart
  = Thrown (MkError "CHOQUE")
      (mkState 1 (mkPlayer 0 0 DirN) error (Some "¡Choque!"))
  /\ trace originRun
     = [OnStatus "Ejecutando..."; OnStep "b0"; ApplyOp (Start "b0");
        OnStep "b1"; ApplyOp (Move 1 "b1"); OnError (MkError "CHOQUE")]
  /\ status (state originRun) = error
  /\ ~ (In (OnError (MkError "WIN")) (trace originRun)
        /\ status (state originRun) = win).
Proof.
  vm_compute. repeat split; intros [_ H]; discriminate.
Qed.

(** C1, from a start cell that has a cell to its north: on the 3 by 3 grid
    without walls, with the agent at (0,2) facing north and the goal at
    (1,1), and no stop requested, the program [Start; Move 1; Turn right;
    Move 1] takes the agent to (0,1), turns it east and takes it to (1,1),
    where [applyOp] throws WIN; [onError] receives it, [onDone] is not
    called and the final status is "win". *)
Theorem scenario_reaches_goal_and_signals_win (b0 b1 b2 b3 : string) :
  let lv := emptyGrid 0 2 in
  let s0 := createInitialState lv [] in
  let s1 := mkState 1 (mkPlayer 0 1 DirN) idle None in
  let s2 := mkState 1 (mkPlayer 0 1 DirE) idle None in
  let s3 := mkState 1 (mkPlayer 1 1 DirE) win (Some "¡Llegaste!") in
  let r := runProgram (adapter lv []) (scenarioProgram b0 b1 b2 b3) s0 [] in
  s0 = mkState 1 (mkPlayer 0 2 DirN) idle None
  /\ applyOp lv [] (Start b0) (Runtime.reset (adapter lv []) s0) = Returned s0
  /\ applyOp lv [] (Move 1 b1) s0 = Returned s1
  /\ applyOp lv [] (Turn right b2) s1 = Returned s2
  /\ applyOp lv [] (Move 1 b3) s2 = Thrown (MkError "WIN") s3
  /\ trace r
     = [OnStatus "Ejecutando..."; OnStep b0; ApplyOp (Start b0);
        OnStep b1; ApplyOp (Move 1 b1); OnStep b2; ApplyOp (Turn right b2);
        OnStep b3; ApplyOp (Move 1 b3); OnError (MkError "WIN")]
  /\ state r = s3
  /\ status (state r) = win
  /\ isRunning r = false.
Proof.
  repeat split.
Qed.

End MazeFacts.

(* ------------------------------------------------------------------ *)
(** ** The runtime *)

Module RuntimeFacts.
Import Ast Runtime Walk.

(** *** Lists of events *)

Lemma is_prefix_nil {A} (l : list A) : is_prefix [] l.
Proof. exists l. reflexivity. Qed.

Lemma is_prefix_refl {A} (l : list A) : is_prefix l l.
Proof. exists []. now rewrite app_nil_r. Qed.

Lemma is_prefix_app_r {A} (l1 l2 l3 : list A) :
  is_prefix l1 l2 -> is_prefix l1 (l2 ++ l3).
Proof. intros [r ->]. exists (r ++ l3). now rewrite app_assoc. Qed.

Lemma is_prefix_app_l {A} (l l1 l2 : list A) :
  is_prefix l1 l2 -> is_prefix (l ++ l1) (l ++ l2).
Proof. intros [r ->]. exists r. now rewrite app_assoc. Qed.

Lemma walk_app a b : walk (a ++ b) = walk a ++ walk b.
Proof. apply filter_app. Qed.

Lemma applied_app a b : applied (a ++ b) = applied a ++ applied b.
Proof.
  induction a as [|e a IH]; [reflexivity|].
  destruct e; simpl; rewrite ?IH; reflexivity.
Qed.

Lemma walk_nil_applied evs : walk evs = [] -> applied evs = [].
Proof.
  induction evs as [|e evs IH]; [reflexivity|].
  destruct e; simpl; try discriminate; exact IH.
Qed.

Lemma applied_walk evs : applied (walk evs) = applied evs.
Proof.
  induction evs as [|e evs IH]; [reflexivity|].
  destruct e; simpl; rewrite ?IH; reflexivity.
Qed.

Lemma afterStop_no_walk l : forallb afterStop l = true -> walk l = [].
Proof.
  induction l as [|e l IH]; [reflexivity|]. simpl. intro H.
  apply andb_true_iff in H. destruct H as [H1 H2].
  destruct e; try discriminate; now apply IH.
Qed.

Lemma walk_clears l : walk (map ClearTimeout l) = [].
Proof. induction l as [|i l IH]; [reflexivity|exact IH]. Qed.

Lemma announced_app l1 l2 :
  announced l1 -> announced l2 -> announced (l1 ++ l2).
Proof.
  intros H1 H2 pre op post E.
  apply app_eq_app in E. destruct E as [l [[E1 E2]|[E1 E2]]].
  - destruct l as [|x l].
    + simpl in E2. symmetry in E2. destruct (H2 [] op post E2) as [pre' K].
      now destruct pre'.
    + injection E2 as <- ->. exact (H1 pre op l E1).
  - destruct (H2 l op post E2) as [pre' ->].
    exists (l1 ++ pre'). rewrite E1. now rewrite app_assoc.
Qed.

Lemma announced_nil : announced [].
Proof. intros [|x pre] op post E; discriminate. Qed.

Lemma announced_step b : announced [OnStep b].
Proof. intros [|x [|y pre]] op post E; discriminate. Qed.

Lemma announced_step_apply op : announced [OnStep (blockId op); ApplyOp op].
Proof.
  intros [|x [|y [|z pre]]] op' post E; try discriminate.
  injection E as <- <- _. now exists [].
Qed.

Lemma announced_concat_repeat l n :
  announced l -> announced (List.concat (repeat l n)).
Proof.
  intro H. induction n as [|n IH]; simpl.
  - apply announced_nil.
  - now apply announced_app.
Qed.

Lemma announced_unrollOp op : announced (unrollOp op).
Proof.
  induction op as [b|n b|d b|ms b|t body b IH] using Op_tree_ind.
  - apply (announced_step_apply (Start b)).
  - apply (announced_step_apply (Move n b)).
  - apply (announced_step_apply (Turn d b)).
  - apply (announced_step_apply (Wait ms b)).
  - change (unrollOp (Repeat t body b))
      with ([OnStep b] ++ List.concat (repeat (unroll body) (repeatTimes t))).
    apply announced_app; [apply announced_step|].
    apply announced_concat_repeat.
    induction IH as [|op l Hop _ IHl].
    + apply announced_nil.
    + change (unroll (op :: l)) with (unrollOp op ++ unroll l).
      now apply announced_app.
Qed.

Lemma announced_unroll ops : announced (unroll ops).
Proof.
  induction ops as [|op l IH].
  - apply announced_nil.
  - change (unroll (op :: l)) with (unrollOp op ++ unroll l).
    apply announced_app; [apply announced_unrollOp|exact IH].
Qed.

Lemma announced_prefix l1 l2 :
  is_prefix l1 l2 -> announced l2 -> announced l1.
Proof.
  intros [rest ->] H pre op post E.
  apply (H pre op (post ++ rest)). rewrite E, <- app_assoc. reflexivity.
Qed.

(** An element that occurs once splits a list in one way only. *)
Lemma split_at_unique {A} (x : A) (a b a' b' : list A) :
  a ++ x :: b = a' ++ x :: b' -> ~ In x a' -> ~ In x b' ->
  a = a' /\ b = b'.
Proof.
  revert a'. induction a as [|y a IH]; intros [|y' a'] E Ha Hb; simpl in E.
  - injection E as ->. now split.
  - injection E as <- _. exfalso. apply Ha. now left.
  - injection E as -> <-. exfalso. apply Hb. apply in_or_app. right. now left.
  - injection E as <- E. destruct (IH a' E) as [-> ->]; auto.
    intro K. apply Ha. now right.
Qed.

Section Run.
Context {AppState : Type}.
Variable adapter : RuntimeAdapter AppState.

Abbreviation RunState := (RunState (AppState:=AppState)).
Abbreviation applyAll := (applyAll adapter).
Abbreviation walks := (walks adapter).
Abbreviation runOp := (runOp adapter).
Abbreviation runOps := (runOps adapter).
Abbreviation callApplyOp := (callApplyOp adapter).

Lemma applyAll_app s l1 l2 s1 :
  applyAll s l1 = Returned s1 -> applyAll s (l1 ++ l2) = applyAll s1 l2.
Proof.
  revert s. induction l1 as [|op l1 IH]; intros s H; simpl in *.
  - now injection H as ->.
  - destruct (applyOp adapter op s); [now apply IH|discriminate].
Qed.

(** *** [stop], [clearTimers] and the suspensions *)

Lemma applyAll_prefix_returns s l1 l2 s' :
  applyAll s (l1 ++ l2) = Returned s' -> exists s1, applyAll s l1 = Returned s1.
Proof.
  revert s. induction l1 as [|op l1 IH]; intros s H.
  - now exists s.
  - simpl in *. destruct (applyOp adapter op s) as [s2|e s2];
      [now apply IH|discriminate].
Qed.

Lemma applyAll_removelast_returns s l s' :
  applyAll s l = Returned s' ->
  exists s1, applyAll s (removelast l) = Returned s1.
Proof.
  destruct l as [|op l]; [intros _; now exists s|].
  intro H.
  rewrite (app_removelast_last op (l:=op :: l)) in H by discriminate.
  now apply applyAll_prefix_returns in H.
Qed.

Lemma applyAll_first_throw s l1 op l2 s1 e s2 :
  applyAll s l1 = Returned s1 ->
  applyOp adapter op s1 = Thrown e s2 ->
  applyAll s (l1 ++ op :: l2) = Thrown e s2.
Proof.
  intros H1 H2. rewrite (applyAll_app _ _ _ _ H1). simpl. now rewrite H2.
Qed.

Lemma clearTimers_loop (l : list nat) (rt : RunState) :
  let rt' := fold_left (fun r id => resolve id (clearTimeout id r)) l rt in
  log rt' = rev (map ClearTimeout l) ++ log rt
  /\ resolved rt' = rev l ++ resolved rt
  /\ running rt' = running rt
  /\ stopped rt' = stopped rt
  /\ state rt' = state rt
  /\ sched rt' = sched rt
  /\ nextTimerId rt' = nextTimerId rt
  /\ pendingTimers rt' = pendingTimers rt
  /\ windowTimers rt'
     = fold_left (fun w id => removeFirst id w) l (windowTimers rt).
Proof.
  revert rt. induction l as [|i l IH]; intro rt; cbv zeta.
  - simpl. repeat split.
  - simpl fold_left.
    destruct (IH (resolve i (clearTimeout i rt)))
      as (H1 & H2 & H3 & H4 & H5 & H6 & H7 & H8 & H9).
    rewrite H1, H2, H3, H4, H5, H6, H7, H8, H9. simpl.
    rewrite <- !app_assoc. repeat split.
Qed.

(** What a call of [stop] on a running run leaves behind. *)
Lemma stop_running (rt : RunState) :
  running rt = true ->
  log (stop rt)
  = OnStatus stopText :: rev (map ClearTimeout (pendingTimers rt)) ++ log rt
  /\ resolved (stop rt) = rev (pendingTimers rt) ++ resolved rt
  /\ running (stop rt) = false
  /\ stopped (stop rt) = true
  /\ state (stop rt) = state rt
  /\ sched (stop rt) = sched rt
  /\ nextTimerId (stop rt) = nextTimerId rt
  /\ pendingTimers (stop rt) = []
  /\ windowTimers (stop rt)
     = fold_left (fun w id => removeFirst id w) (pendingTimers rt)
         (windowTimers rt).
Proof.
  intro Hr. unfold stop. rewrite Hr. simpl negb. cbv iota.
  unfold clearTimers.
  destruct (clearTimers_loop
              (pendingTimers (set_running false (set_stopped true rt)))
              (set_running false (set_stopped true rt)))
    as (H1 & H2 & H3 & H4 & H5 & H6 & H7 & H8 & H9).
  simpl in *. rewrite H1, H2, H3, H4, H5, H6, H7, H9.
  repeat split.
Qed.

Lemma stop_not_running (rt : RunState) : running rt = false -> stop rt = rt.
Proof. intro Hr. unfold stop. now rewrite Hr. Qed.

Lemma quiet_ext_refl (rt : RunState) : quiet_ext rt rt.
Proof. exists []. repeat split; auto. Qed.

Lemma quiet_ext_trans (rt1 rt2 rt3 : RunState) :
  quiet_ext rt1 rt2 -> quiet_ext rt2 rt3 -> quiet_ext rt1 rt3.
Proof.
  intros (e1 & L1 & W1 & S1 & M1) (e2 & L2 & W2 & S2 & M2).
  exists (e1 ++ e2). repeat split.
  - rewrite L2, L1, rev_app_distr, app_assoc. reflexivity.
  - rewrite walk_app, W1, W2. reflexivity.
  - congruence.
  - auto.
Qed.

Lemma quiet_ext_stop (rt : RunState) : quiet_ext rt (stop rt).
Proof.
  destruct (running rt) eqn:Hr.
  - destruct (stop_running rt Hr) as (H1 & _ & _ & H4 & H5 & _).
    exists (map ClearTimeout (pendingTimers rt) ++ [OnStatus stopText]).
    repeat split; auto.
    + rewrite H1, rev_app_distr. reflexivity.
    + rewrite walk_app, walk_clears. reflexivity.
  - rewrite (stop_not_running rt Hr). apply quiet_ext_refl.
Qed.

Lemma quiet_ext_yield (rt : RunState) : quiet_ext rt (yield rt).
Proof.
  unfold yield. destruct (sched rt) as [|[|] rest].
  - apply quiet_ext_refl.
  - apply (quiet_ext_trans _ (set_sched rest rt)).
    + exists []. repeat split; auto.
    + apply quiet_ext_stop.
  - exists []. repeat split; auto.
Qed.

Lemma mem_last id (l : list nat) : mem id (l ++ [id]) = true.
Proof.
  unfold mem. rewrite existsb_app. simpl. rewrite Nat.eqb_refl.
  now rewrite orb_true_r.
Qed.

Lemma mem_head id (l : list nat) : mem id (id :: l) = true.
Proof. unfold mem. simpl. now rewrite Nat.eqb_refl. Qed.

Lemma mem_rev_last id (l l' : list nat) : mem id (rev (l ++ [id]) ++ l') = true.
Proof. rewrite rev_app_distr. simpl. apply mem_head. Qed.

Lemma timerCallback_resolved id (rt : RunState) :
  mem id (resolved (timerCallback id rt)) = true.
Proof.
  unfold timerCallback. cbv zeta.
  destruct (mem id (pendingTimers _)); simpl; apply mem_head.
Qed.

Lemma quiet_ext_timerCallback id (rt : RunState) :
  quiet_ext rt (timerCallback id rt).
Proof.
  exists [TimerFired id]. unfold timerCallback. cbv zeta.
  destruct (mem id (pendingTimers _)); simpl; repeat split; auto.
Qed.

(** The promise of a [sleep] is always resolved: by the timer, or by the
    [stop] that cleared it. *)
Lemma sleep_normal ms (rt : RunState) : fst (sleep ms rt) = Normal.
Proof.
  unfold sleep. cbv zeta.
  set (id := nextTimerId rt).
  set (rt2 := set_pendingTimers _ _).
  assert (Hw : mem id (windowTimers rt2) = true) by apply mem_last.
  assert (Hp : pendingTimers rt2 = pendingTimers rt ++ [id]) by reflexivity.
  assert (H : mem id (windowTimers (yield rt2)) = true
              \/ mem id (resolved (yield rt2)) = true).
  { unfold yield. destruct (sched rt2) as [|[|] rest]; auto.
    destruct (running rt2) eqn:Hr.
    - right.
      destruct (stop_running (set_sched rest rt2) Hr) as (_ & H2 & _).
      rewrite H2.
      change (pendingTimers (set_sched rest rt2))
        with (pendingTimers rt ++ [id]).
      apply mem_rev_last.
    - left. rewrite stop_not_running by exact Hr. exact Hw. }
  destruct (mem id (windowTimers (yield rt2))) eqn:E.
  - now rewrite timerCallback_resolved.
  - destruct H as [H|H]; [discriminate|]. now rewrite H.
Qed.

Lemma quiet_ext_sleep ms (rt : RunState) : quiet_ext rt (snd (sleep ms rt)).
Proof.
  unfold sleep. cbv zeta.
  set (id := nextTimerId rt).
  set (rt2 := set_pendingTimers _ _).
  assert (Q2 : quiet_ext rt rt2).
  { exists [SetTimeout id ms]. repeat split; auto. }
  assert (Q3 : quiet_ext rt (yield rt2)).
  { eapply quiet_ext_trans; [exact Q2|apply quiet_ext_yield]. }
  assert (Q4 : quiet_ext rt
                 (if mem id (windowTimers (yield rt2))
                  then timerCallback id (yield rt2) else yield rt2)).
  { destruct (mem id (windowTimers (yield rt2))); [|exact Q3].
    eapply quiet_ext_trans; [exact Q3|apply quiet_ext_timerCallback]. }
  destruct (mem id (resolved _)); exact Q4.
Qed.

(** *** Pieces of the walk *)

Lemma walks_quiet (rt rt' : RunState) :
  quiet_ext rt rt' -> walks [] rt (Normal, rt').
Proof.
  intros (evs & L & W & S & M). exists evs. simpl fst; simpl snd.
  repeat split; auto.
  - rewrite W. apply is_prefix_nil.
  - discriminate.
  - discriminate.
  - rewrite (walk_nil_applied _ W). simpl. now rewrite S.
Qed.

Lemma walks_stopped spec (rt : RunState) :
  stopped rt = true -> walks spec rt (Return, rt).
Proof.
  intro Hs. exists []. simpl fst; simpl snd.
  repeat split; auto.
  - apply is_prefix_nil.
  - discriminate.
  - discriminate.
Qed.

Lemma walks_await spec (rt : RunState) r :
  walks spec rt r -> walks spec rt (awaitCall r).
Proof.
  destruct r as [c rt1].
  intros (evs & L & A & B & C & D & E & F). simpl fst in *; simpl snd in *.
  destruct (quiet_ext_yield rt1) as (yevs & YL & YW & YS & YM).
  assert (Hmono : stopped (yield rt1) = false -> stopped rt1 = false).
  { intro H. destruct (stopped rt1); [|reflexivity].
    rewrite YM in H by reflexivity. discriminate. }
  assert (HL : log (yield rt1) = rev (evs ++ yevs) ++ log rt).
  { rewrite YL, L, rev_app_distr, app_assoc. reflexivity. }
  assert (HW : walk (evs ++ yevs) = walk evs).
  { rewrite walk_app, YW. apply app_nil_r. }
  assert (HA : applied (evs ++ yevs) = applied evs).
  { rewrite applied_app, (walk_nil_applied _ YW). apply app_nil_r. }
  destruct c; simpl awaitCall; try (exfalso; now apply E);
    exists (evs ++ yevs); simpl fst; simpl snd; rewrite HW;
    (split; [exact HL|]);
    (split; [intro H; destruct (A H) as [H1 H2]; split; [now apply YM|exact H2]|]);
    (split; [exact B|]);
    (split; [|split; [discriminate|split; [discriminate|]]]).
  - intros _ H. apply C; [reflexivity|now apply Hmono].
  - rewrite HA, YS. exact F.
  - intros _ H. apply Hmono in H. rewrite D in H by reflexivity.
    discriminate.
  - rewrite HA, YS. exact F.
  - discriminate.
  - destruct F as (pre & op & noise & s & F1 & F2 & F3 & F4).
    exists pre, op, (noise ++ yevs), s. split; [|split; [|split]].
    + rewrite F1, <- app_assoc. reflexivity.
    + rewrite walk_app, F2, YW. reflexivity.
    + exact F3.
    + rewrite YS. exact F4.
Qed.

Lemma walks_andThen spec1 spec2 (rt : RunState) r1 k :
  walks spec1 rt r1 ->
  (forall rt1, r1 = (Normal, rt1) -> walks spec2 rt1 (k rt1)) ->
  walks (spec1 ++ spec2) rt (andThen r1 k).
Proof.
  destruct r1 as [c1 rt1].
  intros (evs1 & L1 & A1 & B1 & C1 & D1 & E1 & F1) K.
  simpl fst in *; simpl snd in *.
  destruct c1; simpl andThen.
  - specialize (K rt1 eq_refl).
    destruct (k rt1) as [c2 rt2].
    destruct K as (evs2 & L2 & A2 & B2 & C2 & D2 & E2 & F2).
    simpl fst in *; simpl snd in *.
    exists (evs1 ++ evs2). simpl fst; simpl snd.
    assert (Hst : stopped rt2 = false -> stopped rt1 = false).
    { intro H. destruct (stopped rt1); [|reflexivity].
      destruct (A2 eq_refl) as [H' _]. congruence. }
    repeat split; auto.
    + rewrite L2, L1, rev_app_distr, app_assoc. reflexivity.
    + apply A2. now apply A1.
    + rewrite walk_app. destruct (A1 H) as [H1 ->].
      now destruct (A2 H1) as [_ ->].
    + rewrite walk_app. destruct (stopped rt1) eqn:S1.
      * destruct (A2 eq_refl) as [_ ->]. rewrite app_nil_r.
        now apply is_prefix_app_r.
      * rewrite (C1 eq_refl eq_refl). now apply is_prefix_app_l.
    + intros Hc Hs. rewrite walk_app, (C2 Hc Hs).
      now rewrite (C1 eq_refl (Hst Hs)).
    + destruct c2.
      * rewrite applied_app, (applyAll_app _ _ _ _ F1). exact F2.
      * rewrite applied_app, (applyAll_app _ _ _ _ F1). exact F2.
      * destruct F2 as (pre & op & noise & s & G1 & G2 & G3 & G4).
        exists (evs1 ++ pre), op, noise, s. repeat split; auto.
        -- rewrite G1, <- app_assoc. reflexivity.
        -- rewrite applied_app, (applyAll_app _ _ _ _ F1). exact G3.
      * rewrite applied_app, (applyAll_app _ _ _ _ F1). exact F2.
  - exists evs1. simpl fst; simpl snd.
    split; [exact L1|]. split; [exact A1|].
    split; [now apply is_prefix_app_r|]. split; [discriminate|].
    split; [exact D1|]. split; [exact E1|exact F1].
  - exists evs1. simpl fst; simpl snd.
    split; [exact L1|]. split; [exact A1|].
    split; [now apply is_prefix_app_r|]. split; [discriminate|].
    split; [exact D1|]. split; [exact E1|exact F1].
  - exfalso. now apply E1.
Qed.

Lemma walks_step_apply op (rt : RunState) :
  stopped rt = false ->
  walks [OnStep (blockId op); ApplyOp op] rt
    (callApplyOp op (emit (OnStep (blockId op)) rt)).
Proof.
  intro Hs. unfold Runtime.callApplyOp. cbv zeta.
  set (rt1 := emit (ApplyOp op) (emit (OnStep (blockId op)) rt)).
  change (state rt1) with (state rt).
  destruct (applyOp adapter op (state rt)) as [s'|e s'] eqn:E.
  - destruct (quiet_ext_yield rt1) as (yevs & YL & YW & YS & YM).
    exists ([OnStep (blockId op); ApplyOp op] ++ yevs).
    simpl fst; simpl snd.
    assert (HW : walk ([OnStep (blockId op); ApplyOp op] ++ yevs)
                 = [OnStep (blockId op); ApplyOp op]).
    { rewrite walk_app, YW. reflexivity. }
    rewrite HW. repeat split; try congruence.
    + change (log (set_state s' (yield rt1))) with (log (yield rt1)).
      rewrite YL, rev_app_distr, <- app_assoc. reflexivity.
    + apply is_prefix_refl.
    + rewrite applied_app, (walk_nil_applied _ YW). simpl. now rewrite E.
  - exists [OnStep (blockId op); ApplyOp op]. simpl fst; simpl snd.
    repeat split; try congruence.
    + apply is_prefix_refl.
    + exists [OnStep (blockId op)], op, [], (state rt). repeat split.
      exact E.
Qed.

Lemma repeatLoop_walks spec f :
  (forall rt : RunState, walks spec rt (f rt)) ->
  forall n rt, walks (List.concat (repeat spec n)) rt (repeatLoop n f rt).
Proof.
  intros Hf n. induction n as [|n IH]; intro rt; simpl.
  - apply walks_quiet, quiet_ext_refl.
  - destruct (stopped rt) eqn:Hs.
    + now apply walks_stopped.
    + apply walks_andThen; [apply walks_await, Hf|]. intros rt1 _. apply IH.
Qed.

Lemma runOpsWith_walks (l : list Op) :
  Forall (fun op => forall rt, stopped rt = false ->
                               walks (unrollOp op) rt (runOp op rt)) l ->
  forall rt, walks (unroll l) rt (runOpsWith (runOp) l rt).
Proof.
  induction 1 as [|op l Hop _ IH]; intro rt; simpl.
  - apply walks_quiet, quiet_ext_refl.
  - destruct (stopped rt) eqn:Hs.
    + now apply walks_stopped.
    + apply walks_andThen; [now apply Hop|]. intros rt1 _. apply IH.
Qed.

Lemma runOp_walks (op : Op) :
  forall rt, stopped rt = false -> walks (unrollOp op) rt (runOp op rt).
Proof.
  induction op as [b|n b|d b|ms b|t body b IH] using Op_tree_ind;
    intros rt Hs.
  - change (unrollOp (Start b)) with ([OnStep b; ApplyOp (Start b)] ++ []).
    apply walks_andThen; [now apply (walks_step_apply (Start b))|].
    intros rt1 _. apply walks_quiet, quiet_ext_refl.
  - change (unrollOp (Move n b)) with ([OnStep b; ApplyOp (Move n b)] ++ []).
    apply walks_andThen; [now apply (walks_step_apply (Move n b))|].
    intros rt1 _. apply walks_quiet, quiet_ext_refl.
  - change (unrollOp (Turn d b)) with ([OnStep b; ApplyOp (Turn d b)] ++ []).
    apply walks_andThen; [now apply (walks_step_apply (Turn d b))|].
    intros rt1 _. apply walks_quiet, quiet_ext_refl.
  - change (unrollOp (Wait ms b)) with ([OnStep b; ApplyOp (Wait ms b)] ++ []).
    apply walks_andThen; [now apply (walks_step_apply (Wait ms b))|].
    intros rt1 _.
    rewrite (surjective_pairing (sleep (maxZero ms) rt1)), sleep_normal.
    apply walks_quiet, quiet_ext_sleep.
  - change (unrollOp (Repeat t body b))
      with ([OnStep b] ++ List.concat (repeat (unroll body) (repeatTimes t))).
    change (runOp (Repeat t body b) rt)
      with (andThen (Normal, emit (OnStep b) rt)
              (repeatLoop (repeatTimes t) (runOps body))).
    apply walks_andThen.
    + exists [OnStep b]. simpl fst; simpl snd.
      repeat split; try congruence. apply is_prefix_refl.
    + intros rt1 _. apply repeatLoop_walks.
      intro rt2. now apply runOpsWith_walks.
Qed.

Theorem runOps_walks (ops : list Op) (rt : RunState) :
  walks (unroll ops) rt (runOps ops rt).
Proof.
  apply runOpsWith_walks. apply Forall_forall. intros op _.
  apply runOp_walks.
Qed.

(** *** Invariants of the walk *)

(** A property of the run state that the four primitive actions keep is
    kept by the whole walk; a step is announced and an op applied only
    while the run is not stopped. *)
Section Invariant.
Variable I : RunState -> Prop.
Hypothesis I_step :
  forall rt b, I rt -> stopped rt = false -> I (emit (OnStep b) rt).
Hypothesis I_call :
  forall rt op, I rt -> stopped rt = false -> I (snd (callApplyOp op rt)).
Hypothesis I_yield : forall rt, I rt -> I (yield rt).
Hypothesis I_sleep : forall rt ms, I rt -> I (snd (sleep ms rt)).

Lemma awaitCall_invariant r : I (snd r) -> I (snd (awaitCall r)).
Proof. destruct r as [[] rt]; simpl; auto. Qed.

Lemma andThen_invariant r k :
  I (snd r) -> (forall rt, I rt -> I (snd (k rt))) -> I (snd (andThen r k)).
Proof. destruct r as [[] rt]; simpl; auto. Qed.

Lemma repeatLoop_invariant f :
  (forall rt, I rt -> I (snd (f rt))) ->
  forall n rt, I rt -> I (snd (repeatLoop n f rt)).
Proof.
  intros Hf n. induction n as [|n IH]; intros rt H; simpl; [exact H|].
  destruct (stopped rt); [exact H|].
  apply andThen_invariant; [|exact IH].
  apply awaitCall_invariant. now apply Hf.
Qed.

Lemma runOpsWith_invariant (l : list Op) :
  Forall (fun op => forall rt, I rt -> stopped rt = false ->
                               I (snd (runOp op rt))) l ->
  forall rt, I rt -> I (snd (runOpsWith runOp l rt)).
Proof.
  induction 1 as [|op l Hop _ IH]; intros rt H; simpl; [exact H|].
  destruct (stopped rt) eqn:Hs; [exact H|].
  apply andThen_invariant; [now apply Hop|exact IH].
Qed.

Lemma runOp_invariant (op : Op) :
  forall rt, I rt -> stopped rt = false -> I (snd (runOp op rt)).
Proof.
  induction op as [b|n b|d b|ms b|t body b IH] using Op_tree_ind;
    intros rt H Hs; simpl.
  - apply andThen_invariant; [apply I_call; auto|auto].
  - apply andThen_invariant; [apply I_call; auto|auto].
  - apply andThen_invariant; [apply I_call; auto|auto].
  - apply andThen_invariant; [apply I_call; auto|auto].
  - apply repeatLoop_invariant; [|auto].
    now apply runOpsWith_invariant.
Qed.

Lemma runOps_invariant (ops : list Op) (rt : RunState) :
  I rt -> I (snd (runOps ops rt)).
Proof.
  apply runOpsWith_invariant. apply Forall_forall. intros op _.
  apply runOp_invariant.
Qed.
End Invariant.

(** The stopped flag is checked, never reset. *)
Abbreviation stop_discipline := (stop_discipline (AppState:=AppState)).

Lemma stop_discipline_same (rt rt' : RunState) :
  stopped rt' = stopped rt -> running rt' = running rt ->
  log rt' = log rt -> stop_discipline rt -> stop_discipline rt'.
Proof.
  unfold Walk.stop_discipline. intros -> -> ->. auto.
Qed.

Lemma stop_discipline_emit_unstopped e (rt : RunState) :
  stopped rt = false -> e <> OnStatus stopText ->
  stop_discipline rt -> stop_discipline (emit e rt).
Proof.
  unfold Walk.stop_discipline. simpl. intros -> He H [H'|H']; auto.
Qed.

Lemma stop_discipline_emit_after e (rt : RunState) :
  afterStop e = true -> stop_discipline rt -> stop_discipline (emit e rt).
Proof.
  unfold Walk.stop_discipline. simpl. intros He H.
  destruct (stopped rt).
  - destruct H as (Hr & post & pre & L & A & N). split; [exact Hr|].
    exists (e :: post), pre. rewrite L. simpl. rewrite He, A. auto.
  - intros [H'|H']; [|auto]. subst e. discriminate.
Qed.

Lemma not_in_clears (l : list nat) :
  ~ In (OnStatus stopText) (rev (map ClearTimeout l)).
Proof.
  intro H. apply in_rev, in_map_iff in H. destruct H as (x & H & _).
  discriminate.
Qed.

Lemma stop_discipline_stop (rt : RunState) :
  stop_discipline rt -> stop_discipline (stop rt).
Proof.
  intro H. destruct (running rt) eqn:Hr.
  - destruct (stop_running rt Hr) as (H1 & _ & H3 & H4 & _).
    unfold Walk.stop_discipline in *. rewrite H4, H3, H1.
    split; [reflexivity|].
    exists [], (rev (map ClearTimeout (pendingTimers rt)) ++ log rt).
    repeat split. intro K. apply in_app_or in K.
    destruct (stopped rt).
    + destruct H as [H _]. congruence.
    + destruct K as [K|K]; [now apply not_in_clears in K|auto].
  - now rewrite stop_not_running.
Qed.

Lemma stop_discipline_yield (rt : RunState) :
  stop_discipline rt -> stop_discipline (yield rt).
Proof.
  intro H. unfold yield. destruct (sched rt) as [|[|] rest]; auto.
  apply stop_discipline_stop. revert H. now apply stop_discipline_same.
Qed.

Lemma stop_discipline_call op (rt : RunState) :
  stop_discipline rt -> stopped rt = false ->
  stop_discipline (snd (callApplyOp op rt)).
Proof.
  intros H Hs. unfold Runtime.callApplyOp. cbv zeta.
  assert (H1 : stop_discipline (emit (ApplyOp op) rt)).
  { apply stop_discipline_emit_unstopped; auto. discriminate. }
  destruct (applyOp adapter op _); simpl snd.
  - apply (stop_discipline_same (yield (emit (ApplyOp op) rt)));
      [reflexivity|reflexivity|reflexivity|now apply stop_discipline_yield].
  - revert H1. now apply stop_discipline_same.
Qed.

Lemma stop_discipline_sleep ms (rt : RunState) :
  stop_discipline rt -> stop_discipline (snd (sleep ms rt)).
Proof.
  intro H. unfold sleep. cbv zeta.
  set (id := nextTimerId rt).
  set (rt2 := set_pendingTimers _ _).
  assert (H2 : stop_discipline rt2).
  { apply (stop_discipline_same (emit (SetTimeout id ms) rt));
      [reflexivity|reflexivity|reflexivity|
       now apply stop_discipline_emit_after]. }
  assert (H3 : stop_discipline (yield rt2)) by now apply stop_discipline_yield.
  assert (H4 : stop_discipline
                 (if mem id (windowTimers (yield rt2))
                  then timerCallback id (yield rt2) else yield rt2)).
  { destruct (mem id (windowTimers (yield rt2))); [|exact H3].
    apply (stop_discipline_same (emit (TimerFired id) (yield rt2))).
    - unfold timerCallback; cbv zeta.
      destruct (mem id (pendingTimers _)); reflexivity.
    - unfold timerCallback; cbv zeta.
      destruct (mem id (pendingTimers _)); reflexivity.
    - unfold timerCallback; cbv zeta.
      destruct (mem id (pendingTimers _)); reflexivity.
    - now apply stop_discipline_emit_after. }
  destruct (mem id (resolved _)); exact H4.
Qed.

Lemma runOps_stop_discipline ops (rt : RunState) :
  stop_discipline rt -> stop_discipline (snd (runOps ops rt)).
Proof.
  apply runOps_invariant.
  - intros r b H Hs. apply stop_discipline_emit_unstopped; auto.
    discriminate.
  - intros r op H Hs. now apply stop_discipline_call.
  - apply stop_discipline_yield.
  - intros r ms H. now apply stop_discipline_sleep.
Qed.

(** The walk produces neither [onDone] nor [onError] nor the status of
    completion. *)
Abbreviation noEnd := (noEnd (AppState:=AppState)).

Lemma noEnd_emit e (rt : RunState) :
  endEvent e = false -> noEnd rt -> noEnd (emit e rt).
Proof. unfold Walk.noEnd. simpl. intros -> ->. reflexivity. Qed.

Lemma noEnd_same (rt rt' : RunState) :
  log rt' = log rt -> noEnd rt -> noEnd rt'.
Proof. unfold Walk.noEnd. now intros ->. Qed.

Lemma noEnd_stop (rt : RunState) : noEnd rt -> noEnd (stop rt).
Proof.
  intro H. destruct (running rt) eqn:Hr.
  - destruct (stop_running rt Hr) as (H1 & _).
    unfold Walk.noEnd in *. rewrite H1. simpl. rewrite forallb_app, H, andb_true_r.
    apply forallb_forall. intros e He.
    apply in_rev, in_map_iff in He. destruct He as (x & <- & _).
    reflexivity.
  - now rewrite stop_not_running.
Qed.

Lemma noEnd_yield (rt : RunState) : noEnd rt -> noEnd (yield rt).
Proof.
  intro H. unfold yield. destruct (sched rt) as [|[|] rest]; auto.
  apply noEnd_stop. revert H. now apply noEnd_same.
Qed.

Lemma noEnd_sleep ms (rt : RunState) : noEnd rt -> noEnd (snd (sleep ms rt)).
Proof.
  intro H. unfold sleep. cbv zeta.
  set (id := nextTimerId rt).
  set (rt2 := set_pendingTimers _ _).
  assert (H3 : noEnd (yield rt2)).
  { apply noEnd_yield.
    apply (noEnd_same (emit (SetTimeout id ms) rt));
      [reflexivity|now apply noEnd_emit]. }
  assert (H4 : noEnd (if mem id (windowTimers (yield rt2))
                      then timerCallback id (yield rt2) else yield rt2)).
  { destruct (mem id (windowTimers (yield rt2))); [|exact H3].
    apply (noEnd_same (emit (TimerFired id) (yield rt2))).
    - unfold timerCallback; cbv zeta.
      destruct (mem id (pendingTimers _)); reflexivity.
    - now apply noEnd_emit. }
  destruct (mem id (resolved _)); exact H4.
Qed.

Lemma runOps_noEnd ops (rt : RunState) : noEnd rt -> noEnd (snd (runOps ops rt)).
Proof.
  apply runOps_invariant.
  - intros r b H _. now apply noEnd_emit.
  - intros r op H _. unfold Runtime.callApplyOp. cbv zeta.
    assert (H1 : noEnd (emit (ApplyOp op) r)) by now apply noEnd_emit.
    destruct (applyOp adapter op _); simpl snd.
    + apply (noEnd_same (yield (emit (ApplyOp op) r)));
        [reflexivity|now apply noEnd_yield].
    + revert H1. now apply noEnd_same.
  - apply noEnd_yield.
  - intros r ms H. now apply noEnd_sleep.
Qed.

(** With no stop requested and none to come, the suspensions change
    nothing. *)
Abbreviation undisturbed := (undisturbed (AppState:=AppState)).
Abbreviation timersIdle := (timersIdle (AppState:=AppState)).

Lemma yield_undisturbed (rt : RunState) : sched rt = [] -> yield rt = rt.
Proof. unfold yield. now intros ->. Qed.

Lemma undisturbed_call op (rt : RunState) :
  undisturbed rt -> undisturbed (snd (callApplyOp op rt)).
Proof.
  intros [H1 H2]. unfold Runtime.callApplyOp. cbv zeta.
  destruct (applyOp adapter op _); simpl snd.
  - rewrite yield_undisturbed by exact H1. now split.
  - now split.
Qed.

Lemma undisturbed_yield (rt : RunState) :
  undisturbed rt -> undisturbed (yield rt).
Proof. intros [H1 H2]. rewrite yield_undisturbed by exact H1. now split. Qed.

Lemma undisturbed_sleep ms (rt : RunState) :
  undisturbed rt -> undisturbed (snd (sleep ms rt)).
Proof.
  intros [H1 H2]. unfold sleep. cbv zeta.
  set (id := nextTimerId rt).
  set (rt2 := set_pendingTimers _ _).
  rewrite (yield_undisturbed rt2) by exact H1.
  assert (Hw : mem id (windowTimers rt2) = true) by apply mem_last.
  rewrite Hw.
  assert (Hu : undisturbed (timerCallback id rt2)).
  { unfold timerCallback; cbv zeta.
    destruct (mem id (pendingTimers _)); now split. }
  destruct (mem id (resolved _)); exact Hu.
Qed.

Lemma runOps_undisturbed ops (rt : RunState) :
  undisturbed rt -> undisturbed (snd (runOps ops rt)).
Proof.
  apply runOps_invariant.
  - intros r b H _. exact H.
  - intros r op H _. now apply undisturbed_call.
  - apply undisturbed_yield.
  - intros r ms. apply undisturbed_sleep.
Qed.

Lemma runOp_undisturbed op (rt : RunState) :
  undisturbed rt -> undisturbed (snd (runOp op rt)).
Proof.
  intro H. apply runOp_invariant; [| | | |exact H|apply H].
  - intros r b K _. exact K.
  - intros r o K _. now apply undisturbed_call.
  - apply undisturbed_yield.
  - intros r ms. apply undisturbed_sleep.
Qed.

(** No timer outlives the suspension that set it. *)
Lemma timersIdle_stop (rt : RunState) : timersIdle rt -> timersIdle (stop rt).
Proof.
  intros [H1 H2]. destruct (running rt) eqn:Hr.
  - destruct (stop_running rt Hr) as (_ & _ & _ & _ & _ & _ & _ & H8 & H9).
    split; [exact H8|]. rewrite H9, H1. exact H2.
  - rewrite stop_not_running by exact Hr. now split.
Qed.

Lemma timersIdle_yield (rt : RunState) :
  timersIdle rt -> timersIdle (yield rt).
Proof.
  intro H. unfold yield. destruct (sched rt) as [|[|] rest]; auto.
  apply timersIdle_stop. exact H.
Qed.

Lemma timersIdle_sleep ms (rt : RunState) :
  timersIdle rt -> timersIdle (snd (sleep ms rt)).
Proof.
  intros [H1 H2]. unfold sleep. cbv zeta.
  set (id := nextTimerId rt).
  set (rt2 := set_pendingTimers _ _).
  assert (P2 : pendingTimers rt2 = [id]) by (simpl; now rewrite H1).
  assert (W2 : windowTimers rt2 = [id]) by (simpl; now rewrite H2).
  assert (H3 : (pendingTimers (yield rt2) = [id]
                /\ windowTimers (yield rt2) = [id])
               \/ timersIdle (yield rt2)).
  { unfold yield. destruct (sched rt2) as [|[|] rest]; auto.
    destruct (running rt2) eqn:Hr.
    - right.
      destruct (stop_running (set_sched rest rt2) Hr)
        as (_ & _ & _ & _ & _ & _ & _ & H8 & H9).
      split; [exact H8|]. rewrite H9. simpl pendingTimers.
      simpl windowTimers. rewrite H1, H2. simpl. now rewrite Nat.eqb_refl.
    - left. rewrite stop_not_running by exact Hr. now split. }
  assert (H4 : timersIdle (if mem id (windowTimers (yield rt2))
                          then timerCallback id (yield rt2) else yield rt2)).
  { destruct H3 as [[P3 W3]|[P3 W3]].
    - rewrite W3, mem_head. unfold timerCallback; cbv zeta. simpl.
      rewrite P3, W3, mem_head. simpl. rewrite Nat.eqb_refl. now split.
    - rewrite W3. simpl. now split. }
  destruct (mem id (resolved _)); exact H4.
Qed.

Lemma runOps_timersIdle ops (rt : RunState) :
  timersIdle rt -> timersIdle (snd (runOps ops rt)).
Proof.
  apply runOps_invariant.
  - intros r b H _. exact H.
  - intros r op H _. unfold Runtime.callApplyOp. cbv zeta.
    destruct (applyOp adapter op _); simpl snd.
    + apply (timersIdle_yield (emit (ApplyOp op) r)). exact H.
    + exact H.
  - apply timersIdle_yield.
  - intros r ms. apply timersIdle_sleep.
Qed.

(** *** The whole run *)

Abbreviation runProgram := (runProgram adapter).

Lemma forallb_rev {A} (f : A -> bool) (l : list A) :
  forallb f (rev l) = forallb f l.
Proof.
  induction l as [|a l IH]; [reflexivity|].
  simpl. rewrite forallb_app, IH. simpl. rewrite andb_true_r.
  apply andb_comm.
Qed.

Lemma stop_discipline_finally (rt : RunState) :
  stop_discipline rt -> stop_discipline (set_running false rt).
Proof.
  unfold Walk.stop_discipline. simpl. destruct (stopped rt); [|auto].
  intros [_ H]. now split.
Qed.

(** The three ways a run ends, with its trace: the status of the start,
    the events [evs] of the walk, and the [tail] of the ending. *)
Lemma run_cases program s0 schedule :
  let r := runProgram program s0 schedule in
  exists evs tail,
    trace r = OnStatus startText :: evs ++ tail
    /\ running r = false
    /\ is_prefix (walk evs) (unroll (ops program))
    /\ forallb (fun e => negb (endEvent e)) evs = true
    /\ stop_discipline r
    /\ ((stopped r = false
         /\ tail = [OnDone; OnStatus doneText]
         /\ walk evs = unroll (ops program)
         /\ applyAll (reset adapter s0) (applied evs) = Returned (state r))
        \/ (stopped r = true
            /\ tail = []
            /\ applyAll (reset adapter s0) (applied evs) = Returned (state r))
        \/ (exists e pre op noise s,
              tail = [OnError e]
              /\ evs = pre ++ ApplyOp op :: noise
              /\ walk noise = []
              /\ applyAll (reset adapter s0) (applied pre) = Returned s
              /\ applyOp adapter op s = Thrown e (state r))).
Proof.
  cbv zeta. unfold Runtime.runProgram.
  set (rt1 := emit (OnStatus "Ejecutando...") (initialRunState adapter s0 schedule)).
  assert (D1 : stop_discipline rt1).
  { unfold Walk.stop_discipline. simpl. intros [H|[]]. discriminate. }
  assert (N1 : noEnd rt1) by reflexivity.
  pose proof (walks_await _ _ _ (runOps_walks (ops program) rt1)) as W.
  pose proof (awaitCall_invariant _ stop_discipline_yield _
                (runOps_stop_discipline (ops program) rt1 D1)) as D.
  pose proof (awaitCall_invariant _ noEnd_yield _
                (runOps_noEnd (ops program) rt1 N1)) as N.
  destruct (awaitCall (Runtime.runOps adapter (ops program) rt1)) as [c rt2].
  destruct W as (evs & L & _ & B & C & R & E & F).
  simpl fst in *; simpl snd in *.
  change (log rt1) with [OnStatus startText] in L.
  change (state rt1) with (reset adapter s0) in F.
  assert (Nevs : forallb (fun e => negb (endEvent e)) evs = true).
  { unfold Walk.noEnd in N. rewrite L, forallb_app, forallb_rev in N.
    now apply andb_true_iff in N. }
  assert (T : rev (log rt2) = OnStatus startText :: evs).
  { rewrite L, rev_app_distr, rev_involutive. reflexivity. }
  destruct c.
  - (* the walk fell through *)
    destruct (stopped rt2) eqn:Hs.
    + exists evs, []. rewrite app_nil_r.
      split; [exact T|]. split; [reflexivity|]. split; [exact B|].
      split; [exact Nevs|]. split; [now apply stop_discipline_finally|].
      right; left. repeat split; assumption.
    + exists evs, [OnDone; OnStatus doneText].
      split; [unfold trace; simpl; rewrite T; simpl;
              rewrite <- app_assoc; reflexivity|].
      split; [reflexivity|]. split; [exact B|]. split; [exact Nevs|].
      split.
      { apply stop_discipline_finally.
        apply stop_discipline_emit_unstopped; [exact Hs|discriminate|].
        apply stop_discipline_emit_unstopped; [exact Hs|discriminate|].
        exact D. }
      left. repeat split; auto.
  - (* return: only when stopped *)
    rewrite (R eq_refl).
    exists evs, []. rewrite app_nil_r.
    split; [exact T|]. split; [reflexivity|]. split; [exact B|].
    split; [exact Nevs|]. split; [now apply stop_discipline_finally|].
    right; left. repeat split; auto.
  - (* the adapter threw *)
    exists evs, [OnError e].
    split; [unfold trace; simpl; rewrite T; reflexivity|].
    split; [reflexivity|]. split; [exact B|]. split; [exact Nevs|].
    split.
    { apply stop_discipline_finally.
      now apply stop_discipline_emit_after. }
    right; right.
    destruct F as (pre & op & noise & s & F1 & F2 & F3 & F4).
    exists e, pre, op, noise, s. repeat split; assumption.
  - exfalso. now apply E.
Qed.

Lemma end_in_tail e evs tail :
  forallb (fun e => negb (endEvent e)) evs = true ->
  endEvent e = true ->
  In e (OnStatus startText :: evs ++ tail) -> In e tail.
Proof.
  intros N He [H|H].
  - subst e. discriminate.
  - apply in_app_or in H. destruct H as [H|H]; [|exact H].
    rewrite forallb_forall in N. apply N in H. rewrite He in H.
    discriminate.
Qed.

Lemma stopped_iff_status (rt : RunState) :
  stop_discipline rt ->
  (stopped rt = true <-> In (OnStatus stopText) (trace rt)).
Proof.
  unfold Walk.stop_discipline, trace. intro H.
  destruct (stopped rt).
  - destruct H as (_ & post & pre & L & _). split; [intros _|reflexivity].
    apply -> in_rev. rewrite L. apply in_or_app. right. now left.
  - split; [discriminate|]. intro K. apply in_rev in K. contradiction.
Qed.

Lemma run_unstopped program s0 :
  stopped (runProgram program s0 []) = false.
Proof.
  unfold Runtime.runProgram.
  set (rt1 := emit _ _).
  assert (U1 : undisturbed rt1) by (split; reflexivity).
  pose proof (awaitCall_invariant _ (undisturbed_yield)
                _ (runOps_undisturbed (ops program) rt1 U1)) as U.
  destruct (awaitCall _) as [[] rt2]; simpl snd in U; destruct U as [_ U];
    try exact U; simpl; rewrite U; exact U.
Qed.

(** How a run hangs on the adapter: the state is the reset state taken
    through the ops handed to [applyOp], the events of the ending are
    decided by what those calls answered, and without a stop the walk is
    the depth-first sequence up to the first call that throws. *)
Lemma run_links_adapter program s0 schedule :
  let r := runProgram program s0 schedule in
  let s1 := reset adapter s0 in
  let full := unroll (ops program) in
  state r = outcome_state (applyAll s1 (applied (trace r)))
  /\ (exists s, applyAll s1 (removelast (applied (trace r))) = Returned s)
  /\ (forall e, In (OnError e) (trace r) <->
                exists s', applyAll s1 (applied (trace r)) = Thrown e s')
  /\ (In OnDone (trace r) ->
      walk (trace r) = full /\ stopped r = false
      /\ applyAll s1 (applied full) = Returned (state r))
  /\ (stopped r = false ->
      match applyAll s1 (applied full) with
      | Returned s' =>
          walk (trace r) = full /\ state r = s' /\ In OnDone (trace r)
      | Thrown e s' =>
          state r = s' /\ In (OnError e) (trace r)
          /\ exists pre op post,
               full = pre ++ ApplyOp op :: post
               /\ walk (trace r) = pre ++ [ApplyOp op]
      end).
Proof.
  cbv zeta.
  destruct (run_cases program s0 schedule)
    as (evs & tail & T & _ & B & N & _ & Cases).
  set (r := runProgram program s0 schedule) in *.
  assert (Wt : walk tail = []).
  { destruct Cases as [(_ & -> & _)|[(_ & -> & _)|(e & pre & op & noise & s & -> & _)]];
      reflexivity. }
  assert (W : walk (trace r) = walk evs).
  { rewrite T. change (walk (OnStatus startText :: evs ++ tail))
      with (walk (evs ++ tail)).
    rewrite walk_app, Wt. apply app_nil_r. }
  assert (A : applied (trace r) = applied evs).
  { rewrite <- (applied_walk (trace r)), W. apply applied_walk. }
  rewrite A, W.
  destruct Cases as [(Hs & Ht & Full & F)|[(Hs & Ht & F)|(e0 & pre & op & noise & s & Ht & He & Hn & F3 & F4)]].
  - (* done *)
    assert (Fu : applyAll (reset adapter s0) (applied (unroll (ops program)))
                 = Returned (state r)).
    { rewrite <- Full, applied_walk. exact F. }
    assert (Hd : In OnDone (trace r)).
    { rewrite T, Ht. right. apply in_or_app. right. now left. }
    rewrite F. split; [reflexivity|].
    split; [now apply applyAll_removelast_returns in F|].
    split; [|split].
    + intro e. split.
      * intro K. rewrite T, Ht in K.
        apply end_in_tail in K; [|exact N|reflexivity].
        destruct K as [K|[K|[]]]; discriminate.
      * intros (s' & K). discriminate.
    + intros _. auto.
    + intros _. rewrite Fu. auto.
  - (* stopped *)
    rewrite F. split; [reflexivity|].
    split; [now apply applyAll_removelast_returns in F|].
    split; [|split].
    + intro e. split.
      * intro K. rewrite T, Ht in K.
        apply end_in_tail in K; [|exact N|reflexivity]. destruct K.
      * intros (s' & K). discriminate.
    + intro K. rewrite T, Ht in K.
      apply end_in_tail in K; [|exact N|reflexivity]. destruct K.
    + congruence.
  - (* error *)
    assert (Ae : applied evs = applied pre ++ [op]).
    { rewrite He, applied_app. simpl. now rewrite (walk_nil_applied _ Hn). }
    assert (We : walk evs = walk pre ++ [ApplyOp op]).
    { rewrite He, walk_app. simpl. now rewrite Hn. }
    assert (K : applyAll (reset adapter s0) (applied pre ++ [op])
                = Thrown e0 (state r))
      by exact (applyAll_first_throw _ _ _ _ _ _ _ F3 F4).
    assert (Herr : In (OnError e0) (trace r)).
    { rewrite T, Ht. right. apply in_or_app. right. now left. }
    rewrite Ae, K. split; [reflexivity|].
    split; [rewrite removelast_last; eauto|].
    split; [|split].
    + intro e. split.
      * intro H. rewrite T, Ht in H.
        apply end_in_tail in H; [|exact N|reflexivity].
        destruct H as [H|[]]. injection H as <-. eauto.
      * intros (s' & H). injection H as <- _. exact Herr.
    + intro H. rewrite T, Ht in H.
      apply end_in_tail in H; [|exact N|reflexivity].
      destruct H as [H|[]]. discriminate.
    + intros _. destruct B as [rest B].
      assert (Fu : applyAll (reset adapter s0)
                     (applied (unroll (ops program)))
                   = Thrown e0 (state r)).
      { rewrite B, We, <- app_assoc, applied_app, applied_walk. simpl.
        exact (applyAll_first_throw _ _ _ _ _ _ _ F3 F4). }
      rewrite Fu. split; [reflexivity|]. split; [exact Herr|].
      exists (walk pre), op, rest. split; [|exact We].
      rewrite B, We, <- app_assoc. reflexivity.
Qed.

(** C7: the ops of a program are applied in its depth-first sequence
    with every repeat unrolled.  The step notifications and the adapter
    calls of a run are, in order, an initial part of that sequence, and all
    of it when the run ends with [onDone]; every adapter call comes right
    after the one step notification of its op.  The calls are calls of the
    adapter: the state of the run is the reset initial state taken through
    the ops called, each on the state the one before left, and no call
    but the last threw.  A run that was not stopped went through the whole
    sequence when the adapter throws nowhere in it, and else through the
    part that ends with the first call that throws; a run that is never
    asked to stop is not stopped. *)
Theorem ops_applied_depth_first_announced program s0 schedule :
  let r := runProgram program s0 schedule in
  let s1 := reset adapter s0 in
  let full := unroll (ops program) in
  is_prefix (walk (trace r)) full
  /\ (In OnDone (trace r) -> walk (trace r) = full)
  /\ announced (walk (trace r))
  /\ announced full
  /\ state r = outcome_state (applyAll s1 (applied (trace r)))
  /\ (exists s, applyAll s1 (removelast (applied (trace r))) = Returned s)
  /\ (schedule = [] -> stopped r = false)
  /\ (stopped r = false ->
      match applyAll s1 (applied full) with
      | Returned s' => walk (trace r) = full /\ state r = s'
      | Thrown e s' =>
          state r = s'
          /\ exists pre op post,
               full = pre ++ ApplyOp op :: post
               /\ walk (trace r) = pre ++ [ApplyOp op]
      end).
Proof.
  cbv zeta.
  destruct (run_links_adapter program s0 schedule) as (A & L & _ & _ & U).
  destruct (run_cases program s0 schedule)
    as (evs & tail & T & _ & B & N & _ & Cases).
  assert (Wt : walk tail = []).
  { destruct Cases as [(_ & -> & _)|[(_ & -> & _)|(e & pre & op & noise & s & -> & _)]];
      reflexivity. }
  assert (W : walk (trace (runProgram program s0 schedule)) = walk evs).
  { rewrite T. change (walk (OnStatus startText :: evs ++ tail))
      with (walk (evs ++ tail)).
    rewrite walk_app, Wt. apply app_nil_r. }
  rewrite W in *.
  split; [exact B|]. split.
  { intro H. rewrite T in H. apply end_in_tail in H; [|exact N|reflexivity].
    destruct Cases as [(_ & _ & Full & _)|[(_ & -> & _)|(e & pre & op & noise & s & -> & _)]].
    + exact Full.
    + destruct H.
    + destruct H as [H|[]]. discriminate. }
  split; [apply (announced_prefix _ _ B); apply announced_unroll|].
  split; [apply announced_unroll|].
  split; [exact A|]. split; [exact L|]. split.
  { intros ->. apply run_unstopped. }
  intro Hs. specialize (U Hs).
  destruct (applyAll (reset adapter s0) (applied (unroll (ops program))))
    as [s'|e s'].
  - destruct U as (U1 & U2 & _). now split.
  - destruct U as (U1 & _ & U3). now split.
Qed.

(** C5: [onDone] is emitted exactly when the walk went through the whole
    op sequence, no stop was taken and the adapter threw at none of the
    calls made; it is then emitted once and followed by the status
    "Finalizado.", which ends the trace, and the state is what the adapter
    makes of the whole sequence.  [onError] is emitted, with the error,
    exactly when a call of the adapter threw it.  The run is stopped
    exactly when the status "Detenido." was emitted, and a stopped run has
    neither [onDone] nor "Finalizado.".  A call of [stop] on a running run
    stops it and emits "Detenido.".  However the run ended, [isRunning]
    answers false. *)
Theorem done_iff_full_walk_unstopped_no_error program s0 schedule :
  let r := runProgram program s0 schedule in
  let s1 := reset adapter s0 in
  (In OnDone (trace r) <->
     walk (trace r) = unroll (ops program)
     /\ ~ In (OnStatus "Detenido.") (trace r)
     /\ exists s', applyAll s1 (applied (trace r)) = Returned s')
  /\ (In OnDone (trace r) ->
      applyAll s1 (applied (unroll (ops program))) = Returned (state r))
  /\ (forall e, In (OnError e) (trace r) <->
                exists s', applyAll s1 (applied (trace r)) = Thrown e s')
  /\ (In OnDone (trace r) <->
        walk (trace r) = unroll (ops program)
        /\ ~ In (OnStatus "Detenido.") (trace r)
        /\ (forall e, ~ In (OnError e) (trace r)))
  /\ (In OnDone (trace r) ->
      exists pre, trace r = pre ++ [OnDone; OnStatus "Finalizado."]
                  /\ ~ In OnDone pre)
  /\ (stopped r = true <-> In (OnStatus "Detenido.") (trace r))
  /\ (stopped r = true ->
      ~ In OnDone (trace r) /\ ~ In (OnStatus "Finalizado.") (trace r))
  /\ (forall rt : RunState,
        running rt = true ->
        stopped (stop rt) = true
        /\ exists l, log (stop rt) = OnStatus "Detenido." :: l)
  /\ isRunning r = false.
Proof.
  cbv zeta.
  destruct (run_links_adapter program s0 schedule)
    as (_ & _ & Lerr & Ldone & Lrun).
  destruct (run_cases program s0 schedule)
    as (evs & tail & T & Hrun & B & N & D & Cases).
  pose proof (stopped_iff_status _ D) as Hst.
  set (r := runProgram program s0 schedule) in *.
  change stopText with "Detenido." in Hst.
  split; [|split; [|split]].
  { split.
    - intro H. destruct (Ldone H) as (Hw & Hs & Hf).
      split; [exact Hw|]. split.
      + intro K. apply Hst in K. congruence.
      + exists (state r). rewrite <- (applied_walk (trace r)), Hw. exact Hf.
    - intros (_ & Hn & s' & Hr).
      assert (Hs : stopped r = false).
      { destruct (stopped r); [|reflexivity].
        exfalso. apply Hn. now apply Hst. }
      specialize (Lrun Hs).
      destruct (applyAll (reset adapter s0) (applied (unroll (ops program))))
        as [s2|e s2].
      + apply Lrun.
      + destruct Lrun as (_ & He & _). apply Lerr in He.
        destruct He as (s3 & He). congruence. }
  { intro H. apply (Ldone H). }
  { exact Lerr. }
  assert (Hdone : In OnDone (trace r) ->
                  stopped r = false /\ tail = [OnDone; OnStatus doneText]
                  /\ walk evs = unroll (ops program)).
  { intro H. rewrite T in H. apply end_in_tail in H; [|exact N|reflexivity].
    destruct Cases as [(H1 & H2 & H3 & _)|[(_ & -> & _)|(e & pre & op & noise & s & -> & _)]].
    - auto.
    - destruct H.
    - destruct H as [H|[]]. discriminate. }
  assert (Hfin : In (OnStatus "Finalizado.") (trace r) -> stopped r = false).
  { intro H. rewrite T in H. apply end_in_tail in H; [|exact N|reflexivity].
    destruct Cases as [(H1 & _)|[(_ & -> & _)|(e & pre & op & noise & s & -> & _)]].
    - exact H1.
    - destruct H.
    - destruct H as [H|[]]. discriminate. }
  split; [split|].
  - intro H. destruct (Hdone H) as (Hs & Ht & Hw).
    split; [|split].
    + rewrite T, Ht.
      change (walk (OnStatus startText :: evs ++ [OnDone; OnStatus doneText]))
        with (walk (evs ++ [OnDone; OnStatus doneText])).
      rewrite walk_app, Hw. apply app_nil_r.
    + intro K. apply Hst in K. congruence.
    + intros e K. rewrite T, Ht in K.
      apply end_in_tail in K; [|exact N|reflexivity].
      destruct K as [K|[K|[]]]; discriminate.
  - intros (_ & Hn & He).
    destruct Cases as [(_ & Ht & _)|[(Hs & _)|(e & pre & op & noise & s & Ht & _)]].
    + rewrite T, Ht. right. apply in_or_app. right. now left.
    + exfalso. apply Hn. now apply Hst.
    + exfalso. apply (He e). rewrite T, Ht. right. apply in_or_app.
      right. now left.
  - split; [|split; [exact Hst|split; [|split; [|exact Hrun]]]].
    + intro H. destruct (Hdone H) as (_ & Ht & _).
      exists (OnStatus startText :: evs). split.
      * rewrite T, Ht. reflexivity.
      * intros [K|K]; [discriminate|].
        rewrite forallb_forall in N. apply N in K. discriminate.
    + intro Hs. split; intro K.
      * destruct (Hdone K) as (K' & _). congruence.
      * apply Hfin in K. congruence.
    + intros rt Hr.
      destruct (stop_running rt Hr) as (H1 & _ & _ & H4 & _).
      split; [exact H4|]. eexists. exact H1.
Qed.

(** *** Stopping during a wait *)

Lemma mem_true_iff id (l : list nat) : mem id l = true <-> In id l.
Proof.
  unfold mem. rewrite existsb_exists. split.
  - intros (x & Hx & E). apply Nat.eqb_eq in E. now subst.
  - intro H. exists id. split; [exact H|apply Nat.eqb_refl].
Qed.

Lemma mem_false_iff id (l : list nat) : mem id l = false <-> ~ In id l.
Proof.
  rewrite <- mem_true_iff. destruct (mem id l); split; congruence.
Qed.

Lemma removeFirst_last id (w : list nat) :
  ~ In id w -> removeFirst id (w ++ [id]) = w.
Proof.
  induction w as [|t w IH]; intro H; simpl.
  - now rewrite Nat.eqb_refl.
  - destruct (Nat.eqb_spec t id) as [->|Hne].
    + exfalso. apply H. now left.
    + rewrite IH; [reflexivity|]. intro K. apply H. now right.
Qed.

Lemma removeFirst_other i id (w : list nat) :
  i <> id -> removeFirst i (w ++ [id]) = removeFirst i w ++ [id].
Proof.
  intro Hne. induction w as [|t w IH]; simpl.
  - destruct (Nat.eqb_spec id i) as [E|_]; [congruence|reflexivity].
  - destruct (Nat.eqb t i); [reflexivity|]. now rewrite IH.
Qed.

Lemma In_removeFirst x i (w : list nat) :
  In x (removeFirst i w) -> In x w.
Proof.
  induction w as [|t w IH]; simpl; [auto|].
  destruct (Nat.eqb t i); [now right|].
  intros [H|H]; [now left|right; auto].
Qed.

Lemma absent_fold id (l w : list nat) :
  ~ In id w -> ~ In id (fold_left (fun w i => removeFirst i w) l w).
Proof.
  revert w. induction l as [|i l IH]; intros w H; simpl; [exact H|].
  apply IH. intro K. apply H. now apply In_removeFirst in K.
Qed.

Lemma absent_after_clear id (l w : list nat) :
  ~ In id w -> In id l ->
  ~ In id (fold_left (fun w i => removeFirst i w) l (w ++ [id])).
Proof.
  revert w. induction l as [|i l IH]; intros w H Hin; [destruct Hin|].
  simpl fold_left. destruct (Nat.eq_dec i id) as [->|Hne].
  - rewrite removeFirst_last by exact H. now apply absent_fold.
  - rewrite removeFirst_other by exact Hne. apply IH.
    + intro K. apply H. now apply In_removeFirst in K.
    + destruct Hin as [E|Hin]; [congruence|exact Hin].
Qed.

Lemma sleep_stopped_while_pending ms (rt : RunState) rest :
  running rt = true ->
  sched rt = true :: rest ->
  mem (nextTimerId rt) (windowTimers rt) = false ->
  let id := nextTimerId rt in
  let p := pendingTimers rt ++ [id] in
  exists rt',
    sleep ms rt = (Normal, rt')
    /\ log rt'
       = OnStatus "Detenido." :: rev (map ClearTimeout p)
           ++ SetTimeout id ms :: log rt
    /\ pendingTimers rt' = []
    /\ mem id (windowTimers rt') = false
    /\ (forall i, In i p -> In i (resolved rt'))
    /\ stopped rt' = true
    /\ running rt' = false
    /\ state rt' = state rt.
Proof.
  intros Hr Hs Hf. cbv zeta. unfold sleep. cbv zeta.
  set (id := nextTimerId rt).
  set (rt2 := set_pendingTimers _ _).
  assert (Y : yield rt2 = stop (set_sched rest rt2)).
  { unfold yield. change (sched rt2) with (sched rt). now rewrite Hs. }
  rewrite Y.
  destruct (stop_running (set_sched rest rt2) Hr)
    as (H1 & H2 & H3 & H4 & H5 & _ & _ & H8 & H9).
  change (pendingTimers (set_sched rest rt2))
    with (pendingTimers rt ++ [id]) in *.
  change (windowTimers (set_sched rest rt2))
    with (windowTimers rt ++ [id]) in H9.
  assert (Hw : mem id (windowTimers (stop (set_sched rest rt2))) = false).
  { apply mem_false_iff. rewrite H9. apply absent_after_clear.
    - now apply mem_false_iff.
    - apply in_or_app. right. now left. }
  rewrite Hw, H2, mem_rev_last.
  eexists. split; [reflexivity|].
  split; [exact H1|]. split; [exact H8|]. split; [exact Hw|].
  split; [|split; [exact H4|split; [exact H3|exact H5]]].
  intros i Hi. rewrite H2. apply in_or_app. left. now apply -> in_rev.
Qed.

Lemma quiet_after_stop (rt : RunState) pre post :
  stop_discipline rt ->
  trace rt = pre ++ OnStatus stopText :: post ->
  forallb afterStop post = true.
Proof.
  unfold Walk.stop_discipline, trace. intros H E.
  destruct (stopped rt).
  - destruct H as (_ & post0 & pre0 & L & A & N).
    rewrite L, rev_app_distr in E. simpl in E. rewrite <- app_assoc in E.
    simpl in E. symmetry in E.
    apply split_at_unique in E.
    + destruct E as [_ ->]. now rewrite forallb_rev.
    + intro K. apply in_rev in K. contradiction.
    + intro K. apply in_rev in K. rewrite forallb_forall in A.
      apply A in K. discriminate.
  - exfalso. apply H. apply in_rev. rewrite E. apply in_or_app.
    right. now left.
Qed.

Lemma run_timersIdle program s0 schedule :
  timersIdle (runProgram program s0 schedule).
Proof.
  unfold Runtime.runProgram.
  set (rt1 := emit _ _).
  assert (I1 : timersIdle rt1) by (split; reflexivity).
  pose proof (awaitCall_invariant _ timersIdle_yield _
                (runOps_timersIdle (ops program) rt1 I1)) as I.
  destruct (awaitCall _) as [[] rt2]; simpl snd in I; try exact I;
    destruct (stopped rt2); exact I.
Qed.


(** *** Errors of the adapter *)

(** The call that throws is found at one place of the trace only: the
    calls before it returned, and none follows it. *)
Lemma first_throw_unique s0 pre op rest P op0 T s e s' s2 :
  pre ++ ApplyOp op :: rest = P ++ ApplyOp op0 :: T ->
  applied T = [] ->
  applyAll s0 (applied pre) = Returned s ->
  applyOp adapter op s = Thrown e s' ->
  applyAll s0 (applied P) = Returned s2 ->
  pre = P /\ op = op0 /\ rest = T.
Proof.
  revert s0 P.
  induction pre as [|x pre IH]; intros s0 [|y P] E HT Hpre Hop HP;
    simpl in E.
  - injection E as -> ->. auto.
  - injection E as <- _. simpl in Hpre. injection Hpre as ->.
    simpl in HP. rewrite Hop in HP. discriminate.
  - injection E as -> <-. rewrite applied_app in HT. simpl in HT.
    apply app_eq_nil in HT. destruct HT as [_ HT]. discriminate.
  - injection E as <- E.
    destruct x; simpl in Hpre, HP;
      try (destruct (IH s0 P E HT Hpre Hop HP) as (-> & -> & ->); auto).
    destruct (applyOp adapter op1 s0) as [s1|e1 s1]; [|discriminate].
    destruct (IH s1 P E HT Hpre Hop HP) as (-> & -> & ->). auto.
Qed.

(** C4: when a call of [applyOp] in the trace throws (the calls before it
    took the reset state to [s], and [applyOp op s] throws [e] leaving
    [s']), nothing of the walk follows it: the rest of the trace holds no
    step and no adapter call and ends with [onError e]; neither [onDone]
    nor "Finalizado." is emitted; the final state is [s'], what the ops
    applied so far made of the state; and the run is no longer running.
    Conversely [onError] is only ever emitted for such a call. *)
Theorem applyOp_error_ends_walk_keeps_state program s0 schedule :
  let r := runProgram program s0 schedule in
  (forall pre op rest s e s',
      trace r = pre ++ ApplyOp op :: rest ->
      applyAll (reset adapter s0) (applied pre) = Returned s ->
      applyOp adapter op s = Thrown e s' ->
      (exists noise, rest = noise ++ [OnError e] /\ walk noise = [])
      /\ ~ In OnDone (trace r)
      /\ ~ In (OnStatus "Finalizado.") (trace r)
      /\ state r = s'
      /\ isRunning r = false)
  /\ (forall e,
        In (OnError e) (trace r) ->
        exists pre op noise s,
          trace r = pre ++ ApplyOp op :: noise ++ [OnError e]
          /\ walk noise = []
          /\ applyAll (reset adapter s0) (applied pre) = Returned s
          /\ applyOp adapter op s = Thrown e (state r)).
Proof.
  cbv zeta.
  destruct (run_cases program s0 schedule)
    as (evs & tail & T & Hrun & B & N & D & Cases).
  set (r := runProgram program s0 schedule) in *.
  split.
  - intros pre op rest s e s' E Hpre Hop.
    assert (Thrown_all :
      applyAll (reset adapter s0) (applied (trace r)) = Thrown e s').
    { rewrite E, applied_app, (applyAll_app _ _ _ _ Hpre). simpl.
      now rewrite Hop. }
    assert (At : applied tail = []).
    { destruct Cases as [(_ & -> & _)|[(_ & -> & _)|(e0 & pre0 & op0 & noise & s1 & -> & _)]];
        reflexivity. }
    assert (Ae : applied (trace r) = applied evs).
    { rewrite T. change (applied (OnStatus startText :: evs ++ tail))
        with (applied (evs ++ tail)).
      rewrite applied_app, At. apply app_nil_r. }
    rewrite Ae in Thrown_all.
    destruct Cases as [(_ & _ & _ & F)|[(_ & _ & F)|(e0 & pre0 & op0 & noise & s1 & Ht & He & Hn & F3 & F4)]].
    + rewrite F in Thrown_all. discriminate.
    + rewrite F in Thrown_all. discriminate.
    + assert (E' : pre ++ ApplyOp op :: rest
                   = (OnStatus startText :: pre0)
                       ++ ApplyOp op0 :: (noise ++ [OnError e0])).
      { rewrite <- E, T, He, Ht. simpl. rewrite <- app_assoc. reflexivity. }
      apply (first_throw_unique (reset adapter s0) _ _ _ _ _ _ s e s' s1) in E';
        [|rewrite applied_app, (walk_nil_applied _ Hn); reflexivity
         |exact Hpre|exact Hop|exact F3].
      destruct E' as (-> & -> & ->).
      simpl in Hpre. rewrite F3 in Hpre. injection Hpre as <-.
      rewrite F4 in Hop. injection Hop as <- <-.
      split; [exists noise; split; [reflexivity|exact Hn]|].
      split; [|split; [|split; [reflexivity|exact Hrun]]].
      * intro K. rewrite T, Ht in K.
        apply end_in_tail in K; [|exact N|reflexivity].
        destruct K as [K|[]]. discriminate.
      * intro K. rewrite T, Ht in K.
        apply end_in_tail in K; [|exact N|reflexivity].
        destruct K as [K|[]]. discriminate.
  - intros e K. rewrite T in K.
    apply end_in_tail in K; [|exact N|reflexivity].
    destruct Cases as [(_ & -> & _)|[(_ & -> & _)|(e0 & pre0 & op0 & noise & s1 & Ht & He & Hn & F3 & F4)]].
    + destruct K as [K|[K|[]]]; discriminate.
    + destruct K.
    + rewrite Ht in K. destruct K as [K|[]]. injection K as <-.
      exists (OnStatus startText :: pre0), op0, noise, s1.
      split; [|split; [exact Hn|split; [exact F3|exact F4]]].
      rewrite T, He, Ht. simpl. rewrite <- app_assoc. reflexivity.
Qed.

(** *** Repeat *)

Lemma repeatLoop_undisturbed body n (rt : RunState) :
  undisturbed rt ->
  repeatLoop n (runOps body) rt = timesInOrder n (runOps body) rt.
Proof.
  revert rt. induction n as [|n IH]; intros rt H; simpl; [reflexivity|].
  destruct H as [H1 H2]. rewrite H2.
  pose proof (runOps_undisturbed body rt (conj H1 H2)) as U.
  destruct (runOps body rt) as [c rt']. simpl snd in U.
  destruct c; simpl awaitCall;
    rewrite ?(yield_undisturbed rt') by apply U; simpl andThen;
    auto.
Qed.

Lemma runOps_stopped op ops (rt : RunState) :
  stopped rt = true -> runOps (op :: ops) rt = (Return, rt).
Proof. intro H. simpl. now rewrite H. Qed.

Lemma repeatLoop_stopped n f (rt : RunState) :
  stopped rt = true -> repeatLoop (S n) f rt = (Return, rt).
Proof. intro H. simpl. now rewrite H. Qed.

Lemma runOp_stop_discipline op (rt : RunState) :
  stop_discipline rt -> stopped rt = false ->
  stop_discipline (snd (runOp op rt)).
Proof.
  intros H Hs. apply runOp_invariant; [| | | |exact H|exact Hs].
  - intros r b K Ks. apply stop_discipline_emit_unstopped; auto.
    discriminate.
  - intros r o K Ks. now apply stop_discipline_call.
  - apply stop_discipline_yield.
  - intros r ms K. now apply stop_discipline_sleep.
Qed.

(** What a repeat does, from a run that is not stopped: its events, the
    adapter state it leaves, and how it ends, by what the adapter answers
    on the copies of the body. *)
Lemma repeat_follows_adapter times body b (rt : RunState) :
  stopped rt = false -> ~ In (OnStatus "Detenido.") (log rt) ->
  let r := runOp (Repeat times body b) rt in
  let copies := List.concat (repeat (unroll body) (repeatTimes times)) in
  exists evs,
    log (snd r) = rev evs ++ log rt
    /\ is_prefix (walk evs) (OnStep b :: copies)
    /\ state (snd r) = outcome_state (applyAll (state rt) (applied evs))
    /\ (sched rt = [] -> stopped (snd r) = false)
    /\ (stopped (snd r) = false ->
        match applyAll (state rt) (applied copies) with
        | Returned s' =>
            fst r = Normal /\ walk evs = OnStep b :: copies
            /\ state (snd r) = s'
        | Thrown e s' =>
            fst r = Throw e /\ state (snd r) = s'
            /\ exists pre op post,
                 OnStep b :: copies = pre ++ ApplyOp op :: post
                 /\ walk evs = pre ++ [ApplyOp op]
        end)
    /\ (forall pre post,
          evs = pre ++ OnStatus "Detenido." :: post ->
          stopped (snd r) = true /\ walk post = []).
Proof.
  intros Hs Hlog. cbv zeta.
  pose proof (runOp_walks (Repeat times body b) rt Hs) as W.
  assert (D0 : stop_discipline rt).
  { unfold Walk.stop_discipline. rewrite Hs. exact Hlog. }
  pose proof (runOp_stop_discipline (Repeat times body b) rt D0 Hs) as D.
  change (unrollOp (Repeat times body b))
    with (OnStep b :: List.concat (repeat (unroll body) (repeatTimes times)))
    in W.
  set (copies := List.concat (repeat (unroll body) (repeatTimes times))) in *.
  set (r := runOp (Repeat times body b) rt) in *.
  destruct W as (evs & L & _ & P & C & R & NP & M).
  exists evs. split; [exact L|]. split; [exact P|].
  assert (Thr : forall e, fst r = Throw e ->
                applyAll (state rt) (applied evs) = Thrown e (state (snd r))
                /\ applyAll (state rt) (applied copies)
                   = Thrown e (state (snd r))
                /\ exists pre op post,
                     OnStep b :: copies = pre ++ ApplyOp op :: post
                     /\ walk evs = pre ++ [ApplyOp op]).
  { intros e E. rewrite E in M.
    destruct M as (pre & op & noise & s & He & Hn & F3 & F4).
    assert (We : walk evs = walk pre ++ [ApplyOp op]).
    { rewrite He, walk_app. simpl. now rewrite Hn. }
    split; [|split].
    - rewrite He, applied_app. simpl. rewrite (walk_nil_applied _ Hn).
      exact (applyAll_first_throw _ _ _ _ _ _ _ F3 F4).
    - destruct P as [rest P].
      change (applied copies) with (applied (OnStep b :: copies)).
      rewrite P, We, <- app_assoc, applied_app, applied_walk. simpl.
      exact (applyAll_first_throw _ _ _ _ _ _ _ F3 F4).
    - destruct P as [rest P]. exists (walk pre), op, rest.
      split; [|exact We]. rewrite P, We, <- app_assoc. reflexivity. }
  split; [|split; [|split]].
  - destruct (fst r) as [| |e|] eqn:E.
    + now rewrite M.
    + now rewrite M.
    + destruct (Thr e eq_refl) as (K & _). now rewrite K.
    + congruence.
  - intro Hn.
    apply (runOp_undisturbed (Repeat times body b) rt (conj Hn Hs)).
  - intro Hs'. destruct (fst r) as [| |e|] eqn:E.
    + assert (Wf : walk evs = OnStep b :: copies) by (apply C; auto).
      assert (K : applyAll (state rt) (applied copies)
                  = Returned (state (snd r))).
      { change (applied copies) with (applied (OnStep b :: copies)).
        rewrite <- Wf, applied_walk. exact M. }
      rewrite K. auto.
    + rewrite R in Hs' by reflexivity. discriminate.
    + destruct (Thr e eq_refl) as (_ & K & Sh). rewrite K. auto.
    + congruence.
  - intros pre post He.
    assert (Lg : log (snd r)
                 = rev post ++ OnStatus "Detenido." :: rev pre ++ log rt).
    { rewrite L, He, rev_app_distr. simpl. now rewrite <- !app_assoc. }
    unfold Walk.stop_discipline in D.
    destruct (stopped (snd r)).
    + split; [reflexivity|].
      destruct D as (_ & post0 & pre0 & L0 & A0 & N0).
      rewrite L0 in Lg. symmetry in Lg.
      change (OnStatus stopText) with (OnStatus "Detenido.") in Lg, N0.
      apply split_at_unique in Lg; [| |exact N0].
      2:{ intro K. rewrite forallb_forall in A0. apply A0 in K.
          discriminate. }
      destruct Lg as [Lg _]. apply afterStop_no_walk.
      rewrite <- (rev_involutive post), forallb_rev, Lg. exact A0.
    + exfalso. apply D. rewrite Lg. apply in_or_app. right. now left.
Qed.


End Run.

(** *** The theorems at concrete runs of the maze adapter *)

Import Maze.


(** C4 at the run that collides on its first move. *)
Lemma applyOp_error_ends_walk_keeps_state_witness :
  (exists noise,
      [OnError (MkError "CHOQUE")] = noise ++ [OnError (MkError "CHOQUE")]
      /\ walk noise = [])
  /\ ~ In OnDone (trace originRun)
  /\ ~ In (OnStatus "Finalizado.") (trace originRun)
  /\ state originRun = mkState 1 (mkPlayer 0 0 DirN) error (Some "¡Choque!")
  /\ isRunning originRun = false.
Proof.
  apply (proj1 (applyOp_error_ends_walk_keeps_state
                  (adapter (emptyGrid 0 0) [])
                  (scenarioProgram "b0" "b1" "b2" "b3") originStart [])
           [OnStatus "Ejecutando..."; OnStep "b0"; ApplyOp (Start "b0");
            OnStep "b1"]
           (Move 1 "b1") [OnError (MkError "CHOQUE")]
           originStart (MkError "CHOQUE")).
  - reflexivity.
  - reflexivity.
  - reflexivity.
Defined.

(** C5 at a run that goes to its end: the walk is complete, no stop was
    taken and no call threw, so [onDone] is emitted. *)
Lemma done_iff_full_walk_unstopped_no_error_witness :
  In OnDone (trace turnsRun).
Proof.
  apply (proj2 (proj1 (done_iff_full_walk_unstopped_no_error
                         (adapter (emptyGrid 0 2) []) turnsProgram
                         turnsStart []))).
  split; [reflexivity|]. split.
  - vm_compute. intuition discriminate.
  - eexists. vm_compute. reflexivity.
Defined.


(** C7 at a run that is not stopped and whose adapter throws nowhere:
    the walk is the whole sequence, and the state is what the adapter makes
    of it. *)
Lemma ops_applied_depth_first_announced_witness :
  walk (trace turnsRun) = unroll (ops turnsProgram)
  /\ state turnsRun = mkState 1 (mkPlayer 0 2 DirW) idle None.
Proof.
  apply (proj2 (proj2 (proj2 (proj2 (proj2 (proj2 (proj2
           (ops_applied_depth_first_announced
              (adapter (emptyGrid 0 2) []) turnsProgram
              turnsStart [])))))))).
  reflexivity.
Defined.

End RuntimeFacts.

(* ------------------------------------------------------------------ *)
(** ** More on the maze adapter *)

Module MazeMore.
Import Ast Runtime Maze.
Local Open Scope Z_scope.

Section Levels.
Variable level0 : MazeLevel.
Variable moreLevels : list MazeLevel.

Abbreviation getLevel := (getLevel level0 moreLevels).
Abbreviation applyOp := (applyOp level0 moreLevels).
Abbreviation makeInitialState := (makeInitialState level0 moreLevels).
Abbreviation reset := (Maze.reset level0 moreLevels).
Abbreviation onLegalCell := (onLegalCell level0 moreLevels).
Abbreviation deserializeState := (deserializeState level0 moreLevels).
Abbreviation checkConstraints := (checkConstraints level0 moreLevels).

Lemma getLevel_again (lid : Z) : getLevel (id (getLevel lid)) = getLevel lid.
Proof.
  unfold Maze.getLevel.
  destruct (find (fun level => id level =? lid) (levels level0 moreLevels))
    as [l|] eqn:F.
  - pose proof (find_some _ _ F) as [_ Hid].
    apply Z.eqb_eq in Hid. rewrite Hid, F. reflexivity.
  - unfold levels. simpl find. rewrite Z.eqb_refl. reflexivity.
Qed.

Lemma getLevel_in (lid : Z) : In (getLevel lid) (levels level0 moreLevels).
Proof.
  unfold Maze.getLevel.
  destruct (find (fun level => id level =? lid) (levels level0 moreLevels))
    as [l|] eqn:F.
  - now apply find_some in F.
  - now left.
Qed.

(** What the move loop leaves alone, and how it ends. *)
Lemma moveLoop_frame level delta sign n s :
  let o := moveLoop level delta sign n s in
  levelId (outcome_state o) = levelId s
  /\ dir (player (outcome_state o)) = dir (player s)
  /\ match o with
     | Returned s' => status s' = status s /\ message s' = message s
     | Thrown e s' =>
         (e = MkError "CHOQUE" /\ status s' = error
          /\ message s' = Some "¡Choque!")
         \/ (e = MkError "WIN" /\ status s' = win
             /\ message s' = Some "¡Llegaste!"
             /\ x (player s') = cx (goal level)
             /\ y (player s') = cy (goal level))
     end.
Proof.
  revert s. induction n as [|n IH]; intro s; cbv zeta; simpl moveLoop.
  - repeat split.
  - set (nextX := x (player s) + cx delta * sign).
    set (nextY := y (player s) + cy delta * sign).
    match goal with
    | |- context [if ?c then _ else _] => destruct c eqn:B
    end.
    + simpl. split; [reflexivity|split; [reflexivity|]].
      left. repeat split.
    + match goal with
      | |- context [if ?c then _ else _] => destruct c eqn:G
      end.
      * apply andb_true_iff in G. destruct G as [G1 G2].
        apply Z.eqb_eq in G1, G2. simpl in *.
        split; [reflexivity|split; [reflexivity|]].
        right. repeat split; assumption.
      * specialize (IH (set_player (set_xy nextX nextY (player s)) s)).
        cbv zeta in IH. exact IH.
Qed.

Lemma moveLoop_app level delta sign a b s :
  moveLoop level delta sign (a + b) s
  = match moveLoop level delta sign a s with
    | Returned s1 => moveLoop level delta sign b s1
    | Thrown e s1 => Thrown e s1
    end.
Proof.
  revert s. induction a as [|a IH]; intro s; [reflexivity|].
  simpl. destruct (negb _ || _); [reflexivity|].
  destruct (_ && _); [reflexivity|]. apply IH.
Qed.

Lemma applyOp_move steps b s :
  status s <> win -> status s <> error ->
  applyOp (Move steps b) s
  = moveLoop (getLevel (levelId s)) (DIR_DELTAS (dir (player s)))
      (if Qle_bool 0 steps then 1 else -1) (loopCount (Qabs steps)) s.
Proof.
  intros Hw He. unfold Maze.applyOp.
  destruct (status s); try reflexivity; congruence.
Qed.

Lemma status_cases (s : MazeState) :
  (status s = win \/ status s = error)
  \/ (status s <> win /\ status s <> error).
Proof. destruct (status s); auto; right; split; discriminate. Qed.

Lemma applyOp_terminal op s :
  status s = win \/ status s = error -> applyOp op s = Returned s.
Proof. intros [H|H]; unfold Maze.applyOp; rewrite H; reflexivity. Qed.

(** What [applyOp] leaves alone, and how it ends, for every op. *)
Lemma applyOp_frame op s :
  let o := applyOp op s in
  levelId (outcome_state o) = levelId s
  /\ match o with
     | Returned s' => status s' = status s /\ message s' = message s
     | Thrown e s' =>
         (exists steps b, op = Move steps b)
         /\ ((e = MkError "CHOQUE" /\ status s' = error
              /\ message s' = Some "¡Choque!")
             \/ (e = MkError "WIN" /\ status s' = win
                 /\ message s' = Some "¡Llegaste!"
                 /\ x (player s') = cx (goal (getLevel (levelId s)))
                 /\ y (player s') = cy (goal (getLevel (levelId s)))))
     end.
Proof.
  cbv zeta.
  destruct (status s) eqn:St;
    try solve [rewrite applyOp_terminal by auto; simpl; auto].
  - destruct op as [b|steps b|d b|t body b|ms b];
      try solve [unfold Maze.applyOp; rewrite St; simpl; auto].
    rewrite applyOp_move by congruence.
    pose proof (moveLoop_frame (getLevel (levelId s))
                  (DIR_DELTAS (dir (player s)))
                  (if Qle_bool 0 steps then 1 else -1)
                  (loopCount (Qabs steps)) s) as (F1 & _ & F3).
    split; [exact F1|].
    destruct (moveLoop _ _ _ _ s); [rewrite St in F3; exact F3|].
    split; [eauto|exact F3].
  - destruct op as [b|steps b|d b|t body b|ms b];
      try solve [unfold Maze.applyOp; rewrite St; simpl; auto].
    rewrite applyOp_move by congruence.
    pose proof (moveLoop_frame (getLevel (levelId s))
                  (DIR_DELTAS (dir (player s)))
                  (if Qle_bool 0 steps then 1 else -1)
                  (loopCount (Qabs steps)) s) as (F1 & _ & F3).
    split; [exact F1|].
    destruct (moveLoop _ _ _ _ s); [rewrite St in F3; exact F3|].
    split; [eauto|exact F3].
Qed.

(** X1: a left turn and a right turn undo each other, in either order and
    in every state; four right turns are no turn, and a left turn is three
    right turns. *)
Theorem turns_cancel_and_cycle (s : MazeState) (b1 b2 : string) :
  (exists s1, applyOp (Turn left b1) s = Returned s1
              /\ applyOp (Turn right b2) s1 = Returned s)
  /\ (exists s1, applyOp (Turn right b1) s = Returned s1
                 /\ applyOp (Turn left b2) s1 = Returned s)
  /\ (forall d, turnRight (turnRight (turnRight (turnRight d))) = d)
  /\ (forall d, turnLeft d = turnRight (turnRight (turnRight d)))
  /\ (forall d, turnRight d <> d /\ turnLeft d <> d).
Proof.
  destruct s as [l [px py d] st m].
  split; [|split; [|split; [|split]]].
  - destruct st, d; eexists; split; reflexivity.
  - destruct st, d; eexists; split; reflexivity.
  - intros []; reflexivity.
  - intros []; reflexivity.
  - intros []; split; discriminate.
Qed.

(** X2: [reset] depends on the level id only and gives the initial state of
    the level; so it is idempotent, and it gives the same state after any
    op the adapter applied, whether the op returned or threw. *)
Theorem reset_forgets_the_run (s : MazeState) (op : Op) :
  reset s = makeInitialState (levelId s)
  /\ reset (reset s) = reset s
  /\ reset (outcome_state (applyOp op s)) = reset s
  /\ status (reset s) = idle
  /\ message (reset s) = None
  /\ player (reset s) = start (getLevel (levelId s)).
Proof.
  assert (R : forall t, reset t = makeInitialState (levelId t)) by reflexivity.
  split; [apply R|]. split; [|split; [|repeat split]].
  - rewrite !R. unfold Maze.makeInitialState. simpl levelId.
    now rewrite getLevel_again.
  - rewrite !R. now rewrite (proj1 (applyOp_frame op s)).
Qed.

Lemma deserializeState_levelId raw :
  levelId (deserializeState raw)
  = id (getLevel
          (match raw with
           | NotAnObject => 1
           | RawObject r =>
               id (getLevel
                     (match rawLevelId r with Some l => l | None => 1 end))
           end)).
Proof.
  destruct raw as [|r]; [reflexivity|].
  unfold Maze.deserializeState.
  destruct (rawPlayer r) as [[[px|] [py|] [d|]]|]; try reflexivity.
  destruct d; reflexivity.
Qed.

(** X3: the level id of a state names the level [getLevel] answers it
    with, and that level is one of [levels], in every state that
    [makeInitialState], [deserializeState] or [reset] produce, and
    [applyOp] keeps it so. *)
Theorem level_id_names_its_level (lid : Z) (raw : Raw) (s : MazeState)
    (op : Op) :
  let knows := fun t : MazeState =>
    id (getLevel (levelId t)) = levelId t
    /\ In (getLevel (levelId t)) (levels level0 moreLevels) in
  knows (makeInitialState lid)
  /\ knows (deserializeState raw)
  /\ knows (reset s)
  /\ (knows s -> knows (outcome_state (applyOp op s))).
Proof.
  cbv zeta.
  assert (K : forall l, id (getLevel (id (getLevel l))) = id (getLevel l))
    by (intro l; now rewrite getLevel_again).
  split; [|split; [|split]].
  - split; [apply K|apply getLevel_in].
  - split; [|apply getLevel_in].
    rewrite deserializeState_levelId. apply K.
  - split; [apply K|apply getLevel_in].
  - intros [H1 H2]. rewrite (proj1 (applyOp_frame op s)). now split.
Qed.

(** X4: [applyOp] never changes the level id; a start, wait or repeat op
    leaves the whole state as it is; a turn changes the direction only and
    does not throw; a move never changes the direction. *)
Theorem applyOp_frame_by_kind (op : Op) (s : MazeState) :
  levelId (outcome_state (applyOp op s)) = levelId s
  /\ (match op with
      | Start _ | Wait _ _ | Repeat _ _ _ => applyOp op s = Returned s
      | Turn _ _ =>
          exists d, applyOp op s = Returned (set_player (set_dir d (player s)) s)
      | Move _ _ =>
          dir (player (outcome_state (applyOp op s))) = dir (player s)
      end).
Proof.
  split; [apply (proj1 (applyOp_frame op s))|].
  destruct (status s) eqn:St;
    try solve [rewrite applyOp_terminal by auto; destruct op; simpl; auto;
               exists (dir (player s)); now destruct s as [l [px py d] st m]].
  - destruct op as [b|steps b|d b|t body b|ms b];
      try (unfold Maze.applyOp; rewrite St; reflexivity).
    + rewrite applyOp_move by congruence. apply moveLoop_frame.
    + unfold Maze.applyOp; rewrite St. eexists. reflexivity.
  - destruct op as [b|steps b|d b|t body b|ms b];
      try (unfold Maze.applyOp; rewrite St; reflexivity).
    + rewrite applyOp_move by congruence. apply moveLoop_frame.
    + unfold Maze.applyOp; rewrite St. eexists. reflexivity.
Qed.

(** X5: [applyOp] throws for a move only.  What it throws is the collision
    sentinel, with the status "error" and its message in the state, or the
    win sentinel, with the status "win", its message and the player on the
    goal; after a throw every further op returns the state as it is.  A call
    that returns leaves status and message as they were. *)
Theorem applyOp_outcomes (op : Op) (s : MazeState) :
  (forall e s',
      applyOp op s = Thrown e s' ->
      (exists steps b, op = Move steps b)
      /\ ((e = MkError "CHOQUE" /\ status s' = error
           /\ message s' = Some "¡Choque!")
          \/ (e = MkError "WIN" /\ status s' = win
              /\ message s' = Some "¡Llegaste!"
              /\ x (player s') = cx (goal (getLevel (levelId s')))
              /\ y (player s') = cy (goal (getLevel (levelId s')))))
      /\ (forall op', applyOp op' s' = Returned s'))
  /\ (forall s',
        applyOp op s = Returned s' ->
        status s' = status s /\ message s' = message s).
Proof.
  pose proof (applyOp_frame op s) as F. cbv zeta in F.
  split.
  - intros e s' E. rewrite E in F. simpl in F.
    destruct F as (L & M & C). rewrite L.
    split; [exact M|]. split; [exact C|].
    intro op'. apply applyOp_terminal.
    destruct C as [(_ & C & _)|(_ & C & _)]; auto.
  - intros s' E. rewrite E in F. apply F.
Qed.

(** *** Step counts *)

Lemma Qle_bool_inject (z : Z) : Qle_bool 0 (inject_Z z) = (0 <=? z).
Proof. unfold Qle_bool. simpl. now rewrite Z.mul_1_r. Qed.

Lemma loopCount_inject (z : Z) :
  loopCount (Qabs (inject_Z z)) = Z.to_nat (Z.abs z).
Proof.
  unfold loopCount. change (Qabs (inject_Z z)) with (inject_Z (Z.abs z)).
  now rewrite Qceiling_Z.
Qed.

Lemma applyOp_forward (n : nat) b s :
  status s <> win -> status s <> error ->
  applyOp (Move (inject_Z (Z.of_nat n)) b) s
  = moveLoop (getLevel (levelId s)) (DIR_DELTAS (dir (player s))) 1 n s.
Proof.
  intros Hw He. rewrite applyOp_move by assumption.
  rewrite Qle_bool_inject, loopCount_inject.
  replace (0 <=? Z.of_nat n) with true by (symmetry; apply Z.leb_le; lia).
  now rewrite Z.abs_eq, Nat2Z.id by lia.
Qed.

Lemma applyOp_backward (n : nat) b s :
  status s <> win -> status s <> error ->
  applyOp (Move (inject_Z (- Z.of_nat n)) b) s
  = moveLoop (getLevel (levelId s)) (DIR_DELTAS (dir (player s))) (-1) n s.
Proof.
  intros Hw He. rewrite applyOp_move by assumption.
  rewrite Qle_bool_inject, loopCount_inject.
  replace (Z.to_nat (Z.abs (- Z.of_nat n))) with n by lia.
  destruct n as [|n]; [reflexivity|].
  replace (0 <=? - Z.of_nat (S n)) with false
    by (symmetry; apply Z.leb_gt; lia).
  reflexivity.
Qed.

Lemma moveLoop_then level delta sign (a b : nat) s (k : MazeState -> Outcome MazeState) :
  (forall s1, moveLoop level delta sign a s = Returned s1 ->
              k s1 = moveLoop level delta sign b s1) ->
  moveLoop level delta sign (a + b) s
  = match moveLoop level delta sign a s with
    | Returned s1 => k s1
    | Thrown e s1 => Thrown e s1
    end.
Proof.
  intro H. rewrite moveLoop_app.
  destruct (moveLoop level delta sign a s) as [s1|e s1]; [|reflexivity].
  symmetry. now apply H.
Qed.

(** X6: a move of [a + b] whole steps is a move of [a] steps followed,
    when that returns, by a move of [b] steps, forward as well as backward;
    a throw of the first part is the throw of the whole.  A move of zero
    steps returns the state as it is. *)
Theorem move_steps_add (a b : nat) (bl : string) (s : MazeState) :
  applyOp (Move (inject_Z (Z.of_nat (a + b))) bl) s
  = match applyOp (Move (inject_Z (Z.of_nat a)) bl) s with
    | Returned s1 => applyOp (Move (inject_Z (Z.of_nat b)) bl) s1
    | Thrown e s1 => Thrown e s1
    end
  /\ applyOp (Move (inject_Z (- Z.of_nat (a + b))) bl) s
     = match applyOp (Move (inject_Z (- Z.of_nat a)) bl) s with
       | Returned s1 => applyOp (Move (inject_Z (- Z.of_nat b)) bl) s1
       | Thrown e s1 => Thrown e s1
       end
  /\ applyOp (Move 0 bl) s = Returned s.
Proof.
  destruct (status_cases s) as [T|[Hw He]].
  - rewrite !applyOp_terminal by exact T.
    repeat split; now rewrite applyOp_terminal by exact T.
  - split; [|split].
    + rewrite !applyOp_forward by assumption.
      apply moveLoop_then. intros s1 E.
      pose proof (moveLoop_frame (getLevel (levelId s))
                    (DIR_DELTAS (dir (player s))) 1 a s) as F.
      cbv zeta in F. rewrite E in F. simpl in F.
      destruct F as (F1 & F2 & F3 & _).
      rewrite applyOp_forward by congruence. now rewrite F1, F2.
    + rewrite !applyOp_backward by assumption.
      apply moveLoop_then. intros s1 E.
      pose proof (moveLoop_frame (getLevel (levelId s))
                    (DIR_DELTAS (dir (player s))) (-1) a s) as F.
      cbv zeta in F. rewrite E in F. simpl in F.
      destruct F as (F1 & F2 & F3 & _).
      rewrite applyOp_backward by congruence. now rewrite F1, F2.
    + apply (applyOp_forward 0 bl s Hw He).
Qed.

(** X7: a step count that is no whole number counts as the next whole
    number away from zero: the loop runs [i = 0, 1, ...] while [i] is below
    the absolute value, in the direction of the sign. *)
Theorem move_rounds_steps_up (steps : Q) (b : string) (s : MazeState) :
  applyOp (Move steps b) s
  = applyOp
      (Move (inject_Z ((if Qle_bool 0 steps then 1 else -1)
                       * Qceiling (Qabs steps))) b) s.
Proof.
  destruct (status_cases s) as [T|[Hw He]].
  - now rewrite !applyOp_terminal by exact T.
  - assert (C : 0 <= Qceiling (Qabs steps)).
    { change 0 with (Qceiling 0). apply Qceiling_resp_le, Qabs_nonneg. }
    rewrite (applyOp_move steps) by assumption.
    destruct (Qle_bool 0 steps).
    + replace (1 * Qceiling (Qabs steps))
        with (Z.of_nat (Z.to_nat (Qceiling (Qabs steps)))) by lia.
      now rewrite applyOp_forward by assumption.
    + replace (-1 * Qceiling (Qabs steps))
        with (- Z.of_nat (Z.to_nat (Qceiling (Qabs steps)))) by lia.
      now rewrite applyOp_backward by assumption.
Qed.


(** *** Saved states *)

Lemma deserialize_serialize_eq (s : MazeState) :
  deserializeState (serializeState s)
  = set_status idle (set_levelId (id (getLevel (levelId s))) s).
Proof.
  destruct s as [l [px py d] st m].
  unfold Maze.deserializeState, Maze.serializeState, Maze.makeInitialState.
  cbn [rawLevelId rawPlayer rawX rawY rawDir rawMessage
       levelId player status message x y dir].
  rewrite getLevel_again. destruct d; reflexivity.
Qed.

Lemma deserializeState_status raw : status (deserializeState raw) = idle.
Proof. destruct raw as [|r]; reflexivity. Qed.

Lemma round_trip_when_idle_and_known (s : MazeState) :
  status s = idle -> id (getLevel (levelId s)) = levelId s ->
  deserializeState (serializeState s) = s.
Proof.
  intros H1 H2. rewrite deserialize_serialize_eq, H2.
  destruct s as [l p st m]. simpl in H1. now subst.
Qed.

(** X9: saving and restoring is the identity on every state that
    [deserializeState], [makeInitialState] or [reset] produce: restoring
    normalises a state, and a normalised state round-trips. *)
Theorem restored_states_round_trip (raw : Raw) (lid : Z) (s : MazeState) :
  deserializeState (serializeState (deserializeState raw))
  = deserializeState raw
  /\ deserializeState (serializeState (makeInitialState lid))
     = makeInitialState lid
  /\ deserializeState (serializeState (reset s)) = reset s.
Proof.
  split; [|split]; apply round_trip_when_idle_and_known;
    try reflexivity; try apply deserializeState_status.
  - rewrite deserializeState_levelId. now rewrite getLevel_again.
  - simpl. now rewrite getLevel_again.
  - simpl. now rewrite getLevel_again.
Qed.

(** X10: [deserializeState] takes a saved position as it is: it restores
    [x] and [y] whenever both are there, without looking at the grid or the
    walls of the level; so a saved position outside the grid gives a state
    whose player is not on a legal cell.  Without both coordinates the
    player is at the start of the level, a saved direction notwithstanding;
    and what is no object gives the initial state of level 1. *)
Theorem deserialize_does_not_check_position (r : RawState) :
  (forall p px py,
      rawPlayer r = Some p -> rawX p = Some px -> rawY p = Some py ->
      let s := deserializeState (RawObject r) in
      x (player s) = px /\ y (player s) = py
      /\ (inBounds (getLevel (levelId s)) px py = false -> ~ onLegalCell s))
  /\ ((rawPlayer r = None
       \/ exists p, rawPlayer r = Some p /\ (rawX p = None \/ rawY p = None)) ->
      player (deserializeState (RawObject r))
      = start (getLevel (levelId (deserializeState (RawObject r)))))
  /\ deserializeState NotAnObject = makeInitialState 1.
Proof.
  split; [|split; [|reflexivity]].
  - intros p px py Hp Hx Hy. cbv zeta.
    assert (P : x (player (deserializeState (RawObject r))) = px
                /\ y (player (deserializeState (RawObject r))) = py).
    { unfold Maze.deserializeState. rewrite Hp, Hx, Hy.
      destruct (rawDir p) as [d|]; [destruct d|]; split; reflexivity. }
    destruct P as [P1 P2]. split; [exact P1|split; [exact P2|]].
    intros Hout [Hin _]. rewrite P1, P2 in Hin. congruence.
  - intro H. rewrite deserializeState_levelId. rewrite getLevel_again.
    unfold Maze.deserializeState.
    destruct H as [H|(p & H & [Hx|Hy])]; rewrite H.
    + simpl. now rewrite getLevel_again.
    + rewrite Hx. simpl. now rewrite getLevel_again.
    + rewrite Hy. destruct (rawX p); simpl; now rewrite getLevel_again.
Qed.

(** *** Level constraints *)

Lemma has_repeat_iff (l : list string) :
  existsb (fun type => String.eqb type "game_repeat") l = true
  <-> In "game_repeat"%string l.
Proof.
  rewrite existsb_exists. split.
  - intros (t & Hin & E). apply String.eqb_eq in E. now subst.
  - intro H. exists "game_repeat"%string. split; [exact H|reflexivity].
Qed.

(** X11: [checkConstraints] accepts a workspace exactly when the level has
    no constraints or the blocks that count (all but dropdown, math and
    start blocks) are at most [maxBlocks], where given, and hold a repeat
    block where [mustUseRepeat] is set; it has a message exactly when it
    refuses, and the message of the block limit comes first.  A block that
    does not count changes nothing, wherever it stands, and a workspace
    without [getAllBlocks] counts as empty. *)
Theorem checkConstraints_accepts_iff (workspace : option (list string))
    (s : MazeState) :
  let counted :=
    filter countedBlock
      (match workspace with Some blocks => blocks | None => [] end) in
  let level := getLevel (levelId s) in
  (ok (checkConstraints workspace s) = true <->
     forall c, constraints level = Some c ->
       (forall m, maxBlocks c = Some m -> Z.of_nat (List.length counted) <= m)
       /\ (mustUseRepeat c = Some true -> In "game_repeat"%string counted))
  /\ (ok (checkConstraints workspace s) = true <->
      resultMessage (checkConstraints workspace s) = None)
  /\ (forall c m,
        constraints level = Some c -> maxBlocks c = Some m ->
        m < Z.of_nat (List.length counted) ->
        checkConstraints workspace s
        = mkResult false
            (Some ("Usá máximo " ++ numberToString m ++ " bloques.")%string))
  /\ (forall l1 l2 t,
        countedBlock t = false ->
        checkConstraints (Some (l1 ++ t :: l2)) s
        = checkConstraints (Some (l1 ++ l2)) s)
  /\ checkConstraints None s = checkConstraints (Some []) s.
Proof.
  cbv zeta.
  set (counted := filter countedBlock
                    (match workspace with Some b => b | None => [] end)).
  assert (Hdef : checkConstraints workspace s
    = match constraints (getLevel (levelId s)) with
      | None => mkResult true None
      | Some c =>
          let repeatRule :=
            match mustUseRepeat c with
            | Some true =>
                if existsb (fun type => String.eqb type "game_repeat") counted
                then mkResult true None
                else mkResult false
                       (Some "Tenés que usar un bloque de repetir.")
            | _ => mkResult true None
            end in
          match maxBlocks c with
          | Some m =>
              if m <? Z.of_nat (List.length counted)
              then mkResult false
                     (Some ("Usá máximo " ++ numberToString m
                            ++ " bloques.")%string)
              else repeatRule
          | None => repeatRule
          end
      end) by reflexivity.
  rewrite Hdef. clear Hdef.
  assert (Hok : forall c,
    ok (let repeatRule :=
          match mustUseRepeat c with
          | Some true =>
              if existsb (fun type => String.eqb type "game_repeat") counted
              then mkResult true None
              else mkResult false
                     (Some "Tenés que usar un bloque de repetir.")
          | _ => mkResult true None
          end in
        match maxBlocks c with
        | Some m =>
            if m <? Z.of_nat (List.length counted)
            then mkResult false
                   (Some ("Usá máximo " ++ numberToString m
                          ++ " bloques.")%string)
            else repeatRule
        | None => repeatRule
        end)
    = (match maxBlocks c with
       | Some m => negb (m <? Z.of_nat (List.length counted))
       | None => true
       end
       && match mustUseRepeat c with
          | Some true =>
              existsb (fun type => String.eqb type "game_repeat") counted
          | _ => true
          end)).
  { intro c. cbv zeta.
    destruct (maxBlocks c) as [m|];
      [destruct (m <? Z.of_nat (List.length counted))|];
      (destruct (mustUseRepeat c) as [[|]|];
       [destruct (existsb _ counted)|..]); reflexivity. }
  split; [|split; [|split; [|split]]].
  - destruct (constraints (getLevel (levelId s))) as [c|].
    + rewrite Hok, andb_true_iff. split.
      * intros [H1 H2] c' E. injection E as <-. split.
        -- intros m Em. rewrite Em in H1. apply negb_true_iff in H1.
           now apply Z.ltb_ge in H1.
        -- intro Er. rewrite Er in H2. now apply has_repeat_iff.
      * intro H. destruct (H c eq_refl) as [H1 H2]. split.
        -- destruct (maxBlocks c) as [m|]; [|reflexivity].
           apply negb_true_iff, Z.ltb_ge. now apply H1.
        -- destruct (mustUseRepeat c) as [[|]|]; try reflexivity.
           apply has_repeat_iff. now apply H2.
    + split; [intros _ c E; discriminate|reflexivity].
  - destruct (constraints (getLevel (levelId s))) as [c|]; [|now split].
    cbv zeta.
    destruct (maxBlocks c) as [m|];
      [destruct (m <? Z.of_nat (List.length counted))|];
      (destruct (mustUseRepeat c) as [[|]|];
       [destruct (existsb _ counted)|..]);
      simpl; split; congruence.
  - intros c m Hc Hm Hlt. rewrite Hc. cbv zeta. rewrite Hm.
    apply Z.ltb_lt in Hlt. now rewrite Hlt.
  - intros l1 l2 t Ht. unfold Maze.checkConstraints.
    rewrite !filter_app. simpl filter. now rewrite Ht.
  - reflexivity.
Qed.

End Levels.

(** *** The theorems at concrete states of the 3 by 3 grid *)

(** X3 at the state after one step north. *)
Lemma level_id_names_its_level_witness :
  let s' :=
    outcome_state (Maze.applyOp (emptyGrid 0 2) [] (Move 1 "m") turnsStart) in
  Maze.id (Maze.getLevel (emptyGrid 0 2) [] (levelId s')) = levelId s'
  /\ In (Maze.getLevel (emptyGrid 0 2) [] (levelId s'))
        (levels (emptyGrid 0 2) []).
Proof.
  apply (proj2 (proj2 (proj2 (level_id_names_its_level (emptyGrid 0 2) []
                                1 NotAnObject turnsStart (Move 1 "m"))))).
  split; [reflexivity|left; reflexivity].
Defined.

(** X5 at the move that leaves the grid from (0,0). *)
Lemma applyOp_outcomes_witness :
  let s' := mkState 1 (mkPlayer 0 0 DirN) error (Some "¡Choque!") in
  (exists steps b, Move 1 "b1" = Move steps b)
  /\ ((MkError "CHOQUE" = MkError "CHOQUE" /\ status s' = error
       /\ message s' = Some "¡Choque!")
      \/ (MkError "CHOQUE" = MkError "WIN" /\ status s' = win
          /\ message s' = Some "¡Llegaste!"
          /\ x (player s')
             = cx (goal (Maze.getLevel (emptyGrid 0 0) [] (levelId s')))
          /\ y (player s')
             = cy (goal (Maze.getLevel (emptyGrid 0 0) [] (levelId s')))))
  /\ (forall op', Maze.applyOp (emptyGrid 0 0) [] op' s' = Returned s').
Proof.
  apply (proj1 (applyOp_outcomes (emptyGrid 0 0) [] (Move 1 "b1") originStart)
           (MkError "CHOQUE")
           (mkState 1 (mkPlayer 0 0 DirN) error (Some "¡Choque!"))).
  reflexivity.
Defined.


(** X10 at a saved position outside the grid. *)
Lemma deserialize_does_not_check_position_witness :
  let s :=
    Maze.deserializeState (emptyGrid 0 2) []
      (RawObject (mkRawState (Some 1)
                    (Some (mkRawPlayer (Some 7) (Some 7) None)) None None)) in
  x (player s) = 7 /\ y (player s) = 7
  /\ ~ Maze.onLegalCell (emptyGrid 0 2) [] s.
Proof.
  cbv zeta.
  pose proof (proj1 (deserialize_does_not_check_position (emptyGrid 0 2) []
                       (mkRawState (Some 1)
                          (Some (mkRawPlayer (Some 7) (Some 7) None))
                          None None))
                (mkRawPlayer (Some 7) (Some 7) None) 7 7
                eq_refl eq_refl eq_refl) as H.
  cbv zeta in H. destruct H as (H1 & H2 & H3).
  split; [exact H1|]. split; [exact H2|]. apply H3. reflexivity.
Defined.

(** X11 at a workspace of four blocks that count, on the level that
    allows three. *)
Lemma checkConstraints_accepts_iff_witness :
  Maze.checkConstraints ruledGrid []
    (Some ["event_whenflagclicked"; "game_move"; "game_move"; "game_turn";
           "game_repeat"; "math_number"]%string)
    (Maze.createInitialState ruledGrid [])
  = mkResult false (Some "Usá máximo 3 bloques.").
Proof.
  apply (proj1 (proj2 (proj2 (checkConstraints_accepts_iff ruledGrid []
                                (Some ["event_whenflagclicked"; "game_move";
                                       "game_move"; "game_turn";
                                       "game_repeat"; "math_number"]%string)
                                (Maze.createInitialState ruledGrid []))))
           (mkConstraints (Some 3) (Some true)) 3).
  - reflexivity.
  - reflexivity.
  - reflexivity.
Defined.

End MazeMore.

(* ------------------------------------------------------------------ *)
(** ** More on the runtime *)

Module RuntimeMore.
Import Ast Runtime Walk RuntimeFacts.

Lemma applied_of_walk evs : applied (walk evs) = applied evs.
Proof.
  induction evs as [|e evs IH]; [reflexivity|].
  destruct e; simpl; rewrite ?IH; reflexivity.
Qed.

Section Run.
Context {AppState : Type}.
Variable adapter : RuntimeAdapter AppState.

Abbreviation RunState := (RunState (AppState:=AppState)).
Abbreviation applyAll := (applyAll adapter).
Abbreviation runProgram := (runProgram adapter).

Lemma applyAll_throws s l1 op l2 s1 e s2 :
  applyAll s l1 = Returned s1 ->
  applyOp adapter op s1 = Thrown e s2 ->
  applyAll s (l1 ++ op :: l2) = Thrown e s2.
Proof.
  intros H1 H2. rewrite (applyAll_app adapter _ _ _ _ H1). simpl.
  now rewrite H2.
Qed.

Lemma tail_not_applied (tail : list Event) :
  tail = [OnDone; OnStatus doneText] \/ tail = []
  \/ (exists e, tail = [OnError e]) ->
  applied tail = [] /\ walk tail = [].
Proof. intros [->|[->|[e ->]]]; split; reflexivity. Qed.

(** X12: the adapter state at the end of a run is what the ops handed to
    [applyOp], in the order of the trace, make of the reset initial state,
    each applied to the state the one before left and the one that threw,
    if any, being the last: the runtime changes the state in no other way,
    whatever the host's stop calls. *)
Theorem final_state_folds_applied_ops program s0 schedule :
  let r := runProgram program s0 schedule in
  state r = outcome_state (applyAll (reset adapter s0) (applied (trace r)))
  /\ ((exists e, In (OnError e) (trace r)) <->
      exists e s', applyAll (reset adapter s0) (applied (trace r)) = Thrown e s').
Proof.
  cbv zeta.
  destruct (run_cases adapter program s0 schedule)
    as (evs & tail & T & _ & _ & N & _ & Cases).
  set (r := runProgram program s0 schedule) in *.
  assert (A : applied (trace r) = applied evs ++ applied tail).
  { rewrite T. change (applied (OnStatus startText :: evs ++ tail))
      with (applied (evs ++ tail)). apply applied_app. }
  rewrite A.
  destruct Cases as [(_ & Ht & _ & F)|[(_ & Ht & F)|(e & pre & op & noise & s & Ht & He & Hn & F3 & F4)]].
  - rewrite Ht. simpl applied. rewrite app_nil_r, F. split; [reflexivity|].
    split.
    + intros [e K]. rewrite T, Ht in K.
      apply end_in_tail in K; [|exact N|reflexivity].
      destruct K as [K|[K|[]]]; discriminate.
    + intros (e & s' & K). discriminate.
  - rewrite Ht. simpl applied. rewrite app_nil_r, F. split; [reflexivity|].
    split.
    + intros [e K]. rewrite T, Ht in K.
      apply end_in_tail in K; [|exact N|reflexivity]. destruct K.
    + intros (e & s' & K). discriminate.
  - assert (K : applyAll (reset adapter s0) (applied evs ++ applied tail)
                = Thrown e (state r)).
    { rewrite He, applied_app, <- app_assoc. simpl.
      apply (applyAll_throws _ _ _ _ _ _ _ F3 F4). }
    rewrite K. split; [reflexivity|]. split.
    + intros _. eauto.
    + intros _. exists e. rewrite T, Ht. right. apply in_or_app. right.
      now left.
Qed.

Lemma run_undisturbed program s0 :
  stopped (runProgram program s0 []) = false.
Proof.
  unfold Runtime.runProgram.
  set (rt1 := emit _ _).
  assert (U1 : undisturbed rt1) by (split; reflexivity).
  pose proof (awaitCall_invariant _ (undisturbed_yield)
                _ (runOps_undisturbed adapter (ops program) rt1 U1)) as U.
  destruct (awaitCall _) as [[] rt2]; simpl snd in U; destruct U as [_ U];
    try exact U; simpl; rewrite U; exact U.
Qed.

(** X13: with no stop requested, a run does what the adapter does on the
    depth-first sequence of the program with every repeat unrolled: the
    final state is the state that sequence leaves, up to its first throw;
    when no op throws the walk is the whole sequence and the trace ends with
    [onDone] and "Finalizado."; when an op throws the trace ends with
    [onError] of what it threw. *)
Theorem undisturbed_run_is_the_unrolled_fold program s0 :
  let r := runProgram program s0 [] in
  let o := applyAll (reset adapter s0) (applied (unroll (ops program))) in
  state r = outcome_state o
  /\ stopped r = false
  /\ match o with
     | Returned _ =>
         walk (trace r) = unroll (ops program)
         /\ exists pre, trace r = pre ++ [OnDone; OnStatus "Finalizado."]
     | Thrown e _ => exists pre, trace r = pre ++ [OnError e]
     end.
Proof.
  cbv zeta.
  pose proof (run_undisturbed program s0) as U.
  destruct (run_cases adapter program s0 [])
    as (evs & tail & T & _ & B & _ & _ & Cases).
  set (r := runProgram program s0 []) in *.
  destruct Cases as [(_ & Ht & W & F)|[(S & _)|(e & pre & op & noise & s & Ht & He & Hn & F3 & F4)]].
  - rewrite <- W, applied_of_walk, F. split; [reflexivity|].
    split; [exact U|]. split.
    + rewrite T, Ht.
      change (walk (OnStatus startText :: evs ++ [OnDone; OnStatus doneText]))
        with (walk (evs ++ [OnDone; OnStatus doneText])).
      rewrite walk_app. apply app_nil_r.
    + exists (OnStatus startText :: evs). rewrite T, Ht. reflexivity.
  - congruence.
  - destruct B as [rest B].
    assert (K : applyAll (reset adapter s0) (applied (unroll (ops program)))
                = Thrown e (state r)).
    { rewrite B, He, !walk_app. simpl walk. rewrite Hn.
      rewrite <- !app_assoc, applied_app, applied_of_walk. simpl.
      apply (applyAll_throws _ _ _ _ _ _ _ F3 F4). }
    rewrite K. split; [reflexivity|]. split; [exact U|].
    exists (OnStatus startText :: evs). rewrite T, Ht. reflexivity.
Qed.

(** X14: the hooks of the ending fire once: [onError] comes at most once
    and nothing follows it; the status "Detenido." comes at most once; and
    every trace starts with the status "Ejecutando...". *)
Theorem ending_hooks_fire_once program s0 schedule :
  let r := runProgram program s0 schedule in
  (exists rest, trace r = OnStatus "Ejecutando..." :: rest)
  /\ (forall e pre post,
        trace r = pre ++ OnError e :: post ->
        post = [] /\ forall e', ~ In (OnError e') pre)
  /\ (forall pre post,
        trace r = pre ++ OnStatus "Detenido." :: post ->
        ~ In (OnStatus "Detenido.") pre /\ ~ In (OnStatus "Detenido.") post).
Proof.
  cbv zeta.
  destruct (run_cases adapter program s0 schedule)
    as (evs & tail & T & _ & _ & N & D & Cases).
  set (r := runProgram program s0 schedule) in *.
  split; [eexists; exact T|]. split.
  - intros e pre post E.
    assert (K : In (OnError e) (trace r)).
    { rewrite E. apply in_or_app. right. now left. }
    rewrite T in K. apply end_in_tail in K; [|exact N|reflexivity].
    assert (Ht : tail = [OnError e]).
    { destruct Cases as [(_ & Ht & _)|[(_ & Ht & _)|(e0 & _ & _ & _ & _ & Ht & _)]];
        rewrite Ht in K.
      - destruct K as [K|[K|[]]]; discriminate.
      - destruct K.
      - destruct K as [K|[]]. now injection K as ->. }
    assert (Hpre : forall e', ~ In (OnError e') (OnStatus startText :: evs)).
    { intros e' [H|H]; [discriminate|].
      rewrite forallb_forall in N. apply N in H. discriminate. }
    rewrite T, Ht in E. symmetry in E.
    change (OnStatus startText :: evs ++ [OnError e])
      with ((OnStatus startText :: evs) ++ OnError e :: []) in E.
    apply split_at_unique in E; [|apply Hpre|intros []].
    destruct E as [-> ->]. split; [reflexivity|exact Hpre].
  - intros pre post E.
    unfold Walk.stop_discipline in D.
    destruct (stopped r).
    + destruct D as (_ & post0 & pre0 & L & A & Nn).
      unfold trace in E. rewrite L, rev_app_distr in E. simpl in E.
      rewrite <- app_assoc in E. simpl in E. symmetry in E.
      assert (Hpost : ~ In (OnStatus stopText) (rev post0)).
      { intro K. apply in_rev in K. rewrite forallb_forall in A.
        apply A in K. discriminate. }
      assert (Hpre : ~ In (OnStatus stopText) (rev pre0)).
      { intro K. apply in_rev in K. contradiction. }
      apply split_at_unique in E; [|exact Hpre|exact Hpost].
      destruct E as [-> ->]. now split.
    + exfalso. apply D. apply in_rev. fold (trace r). rewrite E.
      apply in_or_app. right. now left.
Qed.

(** X15: [stop] is idempotent and never touches the adapter state; it
    leaves the run not running, and it never takes a stop back.  On a run
    that is running it sets the stopped flag, empties the record of pending
    timers, and adds to the log one [clearTimeout] per pending timer, oldest
    first, followed by the one status "Detenido.". *)
Theorem stop_is_idempotent (rt : RunState) :
  stop (stop rt) = stop rt
  /\ state (stop rt) = state rt
  /\ running (stop rt) = false
  /\ (stopped rt = true -> stopped (stop rt) = true)
  /\ (running rt = true ->
      stopped (stop rt) = true
      /\ pendingTimers (stop rt) = []
      /\ trace (stop rt)
         = trace rt ++ map ClearTimeout (pendingTimers rt)
             ++ [OnStatus "Detenido."]).
Proof.
  destruct (running rt) eqn:Hr.
  - destruct (stop_running rt Hr) as (H1 & _ & H3 & H4 & H5 & _ & _ & H8 & _).
    split; [now apply stop_not_running|].
    split; [exact H5|]. split; [exact H3|]. split; [now intros _|].
    intros _. split; [exact H4|]. split; [exact H8|].
    unfold trace. rewrite H1. simpl. rewrite rev_app_distr, rev_involutive.
    now rewrite <- app_assoc.
  - rewrite (stop_not_running rt Hr).
    split; [now apply stop_not_running|].
    split; [reflexivity|]. split; [exact Hr|]. split; [auto|discriminate].
Qed.

End Run.

(** *** The theorems at concrete runs of the maze adapter *)

Import Maze.

(** X14 at the run that collides on its first move. *)
Lemma ending_hooks_fire_once_witness :
  @nil Event = []
  /\ forall e',
       ~ In (OnError e')
           [OnStatus "Ejecutando..."; OnStep "b0"; ApplyOp (Start "b0");
            OnStep "b1"; ApplyOp (Move 1 "b1")].
Proof.
  apply (proj1 (proj2 (ending_hooks_fire_once (adapter (emptyGrid 0 0) [])
                         (scenarioProgram "b0" "b1" "b2" "b3")
                         originStart []))
           (MkError "CHOQUE")
           [OnStatus "Ejecutando..."; OnStep "b0"; ApplyOp (Start "b0");
            OnStep "b1"; ApplyOp (Move 1 "b1")]
           []).
  reflexivity.
Defined.

(** X15 at a run that waits on one timer. *)
Lemma stop_is_idempotent_witness :
  let rt := mkRunState true false turnsStart [1] [] [1] 2 []
              [SetTimeout 1 100] in
  stopped (stop rt) = true
  /\ pendingTimers (stop rt) = []
  /\ trace (stop rt)
     = [SetTimeout 1 100; ClearTimeout 1; OnStatus "Detenido."].
Proof.
  apply (proj2 (proj2 (proj2 (proj2
           (stop_is_idempotent
              (mkRunState true false turnsStart [1] [] [1] 2 []
                 [SetTimeout 1 100])))))).
  reflexivity.
Defined.

End RuntimeMore.

(* ------------------------------------------------------------------ *)
(** ** The status bar of the host *)

Module HostFacts.
Import Ast Runtime Walk RuntimeFacts Host.

Lemma statusBar_app v l1 l2 :
  statusBar v (l1 ++ l2) = fold_left (statusAfter v) l2 (statusBar v l1).
Proof. unfold statusBar. apply fold_left_app. Qed.

(** Timer events and nothing else leave the bar as it is. *)
Lemma fold_after_stop v l bar :
  forallb afterStop l = true ->
  (forall e, ~ In (OnError e) l) ->
  fold_left (statusAfter v) l bar = bar.
Proof.
  revert bar. induction l as [|e l IH]; intros bar A N; [reflexivity|].
  simpl in A. apply andb_true_iff in A. destruct A as [A1 A2].
  simpl. rewrite IH.
  - destruct e; try discriminate; try reflexivity.
    exfalso. apply (N e). now left.
  - exact A2.
  - intros e' K. apply (N e'). now right.
Qed.

Section Run.
Context {AppState : Type}.
Variable adapter : RuntimeAdapter AppState.

Lemma status_bar_after_error program (s0 : AppState) schedule v e :
  In (OnError e) (trace (runProgram adapter program s0 schedule)) ->
  statusBar v (trace (runProgram adapter program s0 schedule))
  = onErrorStatus e v.
Proof.
  destruct (run_cases adapter program s0 schedule)
    as (evs & tail & T & _ & _ & N & D & Cases).
  set (r := runProgram adapter program s0 schedule) in *.
  intro K. rewrite T in K. apply end_in_tail in K; [|exact N|reflexivity].
  assert (Ht : tail = [OnError e]).
  { destruct Cases as [(_ & Ht & _)|[(_ & Ht & _)|(e0 & _ & _ & _ & _ & Ht & _)]];
      rewrite Ht in K.
    - destruct K as [K|[K|[]]]; discriminate.
    - destruct K.
    - destruct K as [K|[]]. now injection K as ->. }
  rewrite T, Ht.
  change (OnStatus startText :: evs ++ [OnError e])
    with ((OnStatus startText :: evs) ++ [OnError e]).
  rewrite statusBar_app. reflexivity.
Qed.

(** X16: what the status bar of the host shows when a run has ended, for
    any adapter and any view of the final state: "Finalizado ✅" after
    [onDone] (the status "Finalizado." of the runtime is not shown), the
    text [onError] chooses after an error, and "Detenido." after a stop
    without an error. *)
Theorem status_bar_shows_the_ending program (s0 : AppState) schedule v :
  let r := runProgram adapter program s0 schedule in
  (In OnDone (trace r) -> statusBar v (trace r) = "Finalizado ✅")
  /\ (forall e, In (OnError e) (trace r) ->
                statusBar v (trace r) = onErrorStatus e v)
  /\ (stopped r = true -> (forall e, ~ In (OnError e) (trace r)) ->
      statusBar v (trace r) = "Detenido.").
Proof.
  cbv zeta.
  destruct (run_cases adapter program s0 schedule)
    as (evs & tail & T & _ & _ & N & D & Cases).
  set (r := runProgram adapter program s0 schedule) in *.
  split; [|split].
  - intro K. rewrite T in K. apply end_in_tail in K; [|exact N|reflexivity].
    assert (Ht : tail = [OnDone; OnStatus doneText]).
    { destruct Cases as [(_ & Ht & _)|[(_ & Ht & _)|(e0 & _ & _ & _ & _ & Ht & _)]];
        [exact Ht|rewrite Ht in K; destruct K|].
      rewrite Ht in K. destruct K as [K|[]]. discriminate. }
    rewrite T, Ht.
    change (OnStatus startText :: evs ++ [OnDone; OnStatus doneText])
      with ((OnStatus startText :: evs) ++ [OnDone; OnStatus doneText]).
    rewrite statusBar_app. reflexivity.
  - intros e K. now apply status_bar_after_error.
  - intros S Ne. unfold Walk.stop_discipline in D. rewrite S in D.
    destruct D as (_ & post & pre & L & A & _).
    assert (E : trace r = rev pre ++ [OnStatus stopText] ++ rev post).
    { unfold trace. rewrite L, rev_app_distr. simpl.
      now rewrite <- app_assoc. }
    rewrite E, statusBar_app. cbn [fold_left app].
    change (statusAfter v (statusBar v (rev pre)) (OnStatus stopText))
      with "Detenido.".
    apply fold_after_stop.
    + now rewrite forallb_rev.
    + intros e K. apply (Ne e). rewrite E. apply in_or_app. right.
      apply in_or_app. now right.
Qed.

End Run.

Section Maze.
Variable level0 : Maze.MazeLevel.
Variable moreLevels : list Maze.MazeLevel.


End Maze.

(** *** The theorems at concrete runs of the maze adapter *)

(** X16 at a run that goes to its end. *)
Lemma status_bar_shows_the_ending_witness :
  statusBar (mazeView (state Maze.turnsRun)) (trace Maze.turnsRun)
  = "Finalizado ✅".
Proof.
  apply (proj1 (status_bar_shows_the_ending
                  (Maze.adapter (Maze.emptyGrid 0 2) []) Maze.turnsProgram
                  Maze.turnsStart [] (mazeView (state Maze.turnsRun)))).
  vm_compute. do 18 right. left. reflexivity.
Defined.


End HostFacts.

(* ------------------------------------------------------------------ *)
(** ** More on the validator *)

Module ValidateMore.
Import Ast Validate Runtime Walk ValidateFacts.

Lemma countOps_append l1 l2 :
  countOps (l1 ++ l2) = countOps l1 + countOps l2.
Proof.
  induction l1 as [|op l1 IH]; simpl app; [reflexivity|].
  rewrite !countOps_cons, IH. lia.
Qed.

Lemma countOp_positive op : 1 <= countOp op.
Proof. destruct op; simpl; lia. Qed.

Lemma length_le_countOps ops : List.length ops <= countOps ops.
Proof.
  induction ops as [|op ops IH]; [reflexivity|].
  rewrite countOps_cons. pose proof (countOp_positive op). simpl. lia.
Qed.

Lemma countOp_le_countOps op ops : In op ops -> countOp op <= countOps ops.
Proof.
  induction ops as [|o ops IH]; intros []; rewrite countOps_cons.
  - subst. lia.
  - specialize (IH H). lia.
Qed.

Lemma passes_iff program :
  validateProgram program = Passes <->
  exists op0 rest,
    ops program = op0 :: rest /\ isStart op0 = true
    /\ countOps (ops program) <= 200.
Proof.
  pose proof (validate_cases program) as H. change MAX_OPS with 200 in H.
  destruct (ops program) as [|op0 rest] eqn:E.
  - rewrite H. split; [discriminate|]. intros (o & r & K & _). discriminate.
  - destruct (isStart op0) eqn:Es.
    + destruct (Nat.leb_spec (countOps (op0 :: rest)) 200) as [Hc|Hc];
        rewrite H; split; try discriminate.
      * intros _. exists op0, rest. auto.
      * reflexivity.
      * intros (o & r & K & _ & Hle). lia.
    + rewrite H. split; [discriminate|].
      intros (o & r & K & Hs & _). injection K as <- <-. congruence.
Qed.

(** X18: the op count is additive over concatenation and at least the
    number of ops of the list.  So a program that passes has at most 200
    top-level ops, every repeat of it has a body of fewer than 200 ops, and
    cutting ops off its end, short of the first, gives a program that
    passes. *)
Theorem passing_programs_are_small_and_prefix_closed :
  (forall l1 l2, countOps (l1 ++ l2) = countOps l1 + countOps l2)
  /\ (forall ops, List.length ops <= countOps ops)
  /\ (forall program,
        validateProgram program = Passes ->
        List.length (ops program) <= 200
        /\ forall times body b,
             In (Repeat times body b) (ops program) -> countOps body < 200)
  /\ (forall op0 l1 l2,
        validateProgram (mkProgram (op0 :: l1 ++ l2)) = Passes ->
        validateProgram (mkProgram (op0 :: l1)) = Passes).
Proof.
  split; [exact countOps_append|]. split; [exact length_le_countOps|].
  split.
  - intros program H. apply passes_iff in H.
    destruct H as (op0 & rest & E & Hs & Hc). split.
    + pose proof (length_le_countOps (ops program)). lia.
    + intros times body b Hin.
      apply countOp_le_countOps in Hin. simpl in Hin.
      change (countOpsWith countOp body) with (countOps body) in Hin. lia.
  - intros op0 l1 l2 H. apply passes_iff in H. apply passes_iff.
    destruct H as (o & r & E & Hs & Hc). simpl in E, Hc.
    injection E as <- <-. exists op0, l1. simpl. repeat split; auto.
    change (op0 :: l1 ++ l2) with ((op0 :: l1) ++ l2) in Hc.
    rewrite countOps_append in Hc. lia.
Qed.

Lemma length_concat_repeat {A} (l : list A) n :
  List.length (List.concat (repeat l n)) = n * List.length l.
Proof.
  induction n as [|n IH]; [reflexivity|].
  simpl. now rewrite length_app, IH.
Qed.

Lemma repeatTimes_nat n : repeatTimes (inject_Z (Z.of_nat n)) = n.
Proof.
  unfold repeatTimes. rewrite Qfloor_Z, Z.max_r by lia. apply Nat2Z.id.
Qed.

(** X19: the validator bounds the size of a program, not the length of
    its walk: for every [n] the program of three ops that repeats one move
    [n] times passes, and its depth-first sequence has [3 + 2 n] events. *)
Theorem passing_program_walk_is_unbounded (n : nat) :
  validateProgram (repeatedMove n) = Passes
  /\ countOps (ops (repeatedMove n)) = 3
  /\ List.length (unroll (ops (repeatedMove n))) = 3 + 2 * n.
Proof.
  split; [reflexivity|]. split; [reflexivity|].
  unfold repeatedMove. simpl ops.
  change (unroll [Start "s"; Repeat (inject_Z (Z.of_nat n)) [Move 1 "m"] "r"])
    with ([OnStep "s"; ApplyOp (Start "s"); OnStep "r"]
          ++ List.concat
               (repeat [OnStep "m"; ApplyOp (Move 1 "m")]
                  (repeatTimes (inject_Z (Z.of_nat n))))
          ++ []).
  rewrite app_nil_r, length_app, length_concat_repeat, repeatTimes_nat.
  simpl. lia.
Qed.

(** X18 at the program of the runtime examples, cut before its last
    op. *)
Lemma passing_programs_are_small_and_prefix_closed_witness :
  validateProgram
    (mkProgram
       [Start "s"; Repeat (5 # 2)%Q [Turn left "t"; Wait 100 "w"] "r"])
  = Passes.
Proof.
  apply (proj2 (proj2 (proj2 passing_programs_are_small_and_prefix_closed))
           (Start "s") [Repeat (5 # 2)%Q [Turn left "t"; Wait 100 "w"] "r"]
           [Turn right "x"]).
  reflexivity.
Defined.

End ValidateMore.

(* ------------------------------------------------------------------ *)
(** ** The project store *)

Module ProjectStoreFacts.
Import ProjectStore.
Local Open Scope string_scope.

Lemma append_inj (p a b : string) : p ++ a = p ++ b -> a = b.
Proof.
  induction p as [|c p IH]; simpl; intro H; [exact H|].
  injection H as H. now apply IH.
Qed.

Lemma storageKey_inj a b : storageKey a = storageKey b -> a = b.
Proof. apply append_inj. Qed.

Lemma prefix_append (p a : string) : String.prefix p (p ++ a) = true.
Proof.
  induction p as [|c p IH]; simpl.
  - now destruct a.
  - destruct (Ascii.ascii_dec c c); [exact IH|congruence].
Qed.

Lemma slice_append (p a : string) : slice (String.length p) (p ++ a) = a.
Proof. induction p as [|c p IH]; simpl; [now destruct a|exact IH]. Qed.

Lemma prefix_slice (p k : string) :
  String.prefix p k = true -> k = p ++ slice (String.length p) k.
Proof.
  revert k. induction p as [|c p IH]; intros k H; simpl.
  - now destruct k.
  - destruct k as [|c' k]; [discriminate|]. simpl in H.
    destruct (Ascii.ascii_dec c c'); [|discriminate].
    subst. f_equal. now apply IH.
Qed.

Local Open Scope list_scope.

Lemma hasKey_iff key (st : Storage) :
  hasKey key st = true <-> exists v, In (key, v) st.
Proof.
  unfold hasKey. rewrite existsb_exists. split.
  - intros ([k v] & Hin & E). apply String.eqb_eq in E. simpl in E.
    subst. eauto.
  - intros (v & Hin). exists (key, v). split; [exact Hin|].
    apply String.eqb_refl.
Qed.

Lemma getItem_replaceItem_same key v (st : Storage) :
  hasKey key st = true -> getItem key (replaceItem key v st) = Some v.
Proof.
  unfold getItem, hasKey.
  induction st as [|[k w] st IH]; simpl; [discriminate|].
  destruct (String.eqb k key) eqn:E; simpl.
  - now rewrite E.
  - rewrite E. exact IH.
Qed.

Lemma getItem_append_new key v (st : Storage) :
  hasKey key st = false -> getItem key (st ++ [(key, v)]) = Some v.
Proof.
  unfold getItem, hasKey.
  induction st as [|[k w] st IH]; simpl.
  - now rewrite String.eqb_refl.
  - destruct (String.eqb k key); [discriminate|exact IH].
Qed.

Lemma getItem_setItem_same key v (st : Storage) :
  getItem key (setItem key v st) = Some v.
Proof.
  unfold setItem. destruct (hasKey key st) eqn:H.
  - now apply getItem_replaceItem_same.
  - now apply getItem_append_new.
Qed.

Lemma getItem_setItem_other key key' v (st : Storage) :
  key' <> key -> getItem key' (setItem key v st) = getItem key' st.
Proof.
  intro Hne. apply String.eqb_neq in Hne. unfold setItem.
  destruct (hasKey key st).
  - unfold getItem. induction st as [|[k w] st IH]; [reflexivity|].
    simpl. destruct (String.eqb k key) eqn:E; simpl.
    + apply String.eqb_eq in E. subst k. rewrite String.eqb_sym, Hne.
      reflexivity.
    + destruct (String.eqb k key'); [reflexivity|exact IH].
  - unfold getItem. induction st as [|[k w] st IH]; simpl.
    + now rewrite String.eqb_sym, Hne.
    + destruct (String.eqb k key'); [reflexivity|exact IH].
Qed.

Lemma getItem_removeItem_same key (st : Storage) :
  getItem key (removeItem key st) = None.
Proof.
  unfold getItem, removeItem.
  induction st as [|[k w] st IH]; [reflexivity|].
  simpl. destruct (String.eqb k key) eqn:E; simpl; [exact IH|].
  now rewrite E.
Qed.

Lemma getItem_removeItem_other key key' (st : Storage) :
  key' <> key -> getItem key' (removeItem key st) = getItem key' st.
Proof.
  intro Hne. unfold getItem, removeItem.
  induction st as [|[k w] st IH]; [reflexivity|].
  simpl. destruct (String.eqb k key) eqn:E; simpl.
  - apply String.eqb_eq in E. subst k.
    apply String.eqb_neq in Hne. rewrite String.eqb_sym, Hne. exact IH.
  - destruct (String.eqb k key'); [reflexivity|exact IH].
Qed.

Lemma setItem_twice key v (st : Storage) :
  setItem key v (setItem key v st) = setItem key v st.
Proof.
  assert (R : forall st', hasKey key st' = true ->
            hasKey key (replaceItem key v st') = true
            /\ replaceItem key v (replaceItem key v st')
               = replaceItem key v st').
  { unfold hasKey. induction st' as [|[k w] st' IH]; simpl; [discriminate|].
    destruct (String.eqb k key) eqn:E; simpl; rewrite E; simpl.
    - now split.
    - intro H. destruct (IH H) as [H1 H2]. now rewrite H2. }
  assert (A : forall st', hasKey key st' = false ->
            hasKey key (st' ++ [(key, v)]) = true
            /\ replaceItem key v (st' ++ [(key, v)]) = st' ++ [(key, v)]).
  { unfold hasKey. induction st' as [|[k w] st' IH]; simpl.
    - rewrite String.eqb_refl. now split.
    - destruct (String.eqb k key) eqn:E; simpl; [discriminate|].
      intro H. destruct (IH H) as [H1 H2]. now rewrite H2. }
  unfold setItem. destruct (hasKey key st) eqn:H.
  - destruct (R st H) as [H1 H2]. rewrite H1. exact H2.
  - destruct (A st H) as [H1 H2]. rewrite H1. exact H2.
Qed.

Lemma hasKey_setItem key key' v (st : Storage) :
  hasKey key' (setItem key v st) = String.eqb key' key || hasKey key' st.
Proof.
  unfold setItem. destruct (hasKey key st) eqn:H.
  - unfold hasKey in *. induction st as [|[k w] st IH]; [discriminate|].
    simpl in *. destruct (String.eqb k key) eqn:E; simpl.
    + apply String.eqb_eq in E. subst k.
      destruct (String.eqb key key') eqn:E'; simpl.
      * now rewrite orb_true_r.
      * rewrite String.eqb_sym, E'. reflexivity.
    + rewrite (IH H). destruct (String.eqb k key'); simpl;
        [now rewrite orb_true_r|reflexivity].
  - unfold hasKey. rewrite existsb_app. simpl.
    rewrite orb_false_r, (String.eqb_sym key key'). apply orb_comm.
Qed.

Lemma hasKey_removeItem key key' (st : Storage) :
  hasKey key' (removeItem key st)
  = negb (String.eqb key' key) && hasKey key' st.
Proof.
  unfold hasKey, removeItem. induction st as [|[k w] st IH]; simpl.
  - now rewrite andb_false_r.
  - destruct (String.eqb k key) eqn:E; simpl.
    + apply String.eqb_eq in E. subst k. rewrite IH.
      rewrite (String.eqb_sym key key').
      destruct (String.eqb key' key); reflexivity.
    + rewrite IH. destruct (String.eqb k key') eqn:E'; simpl.
      * apply String.eqb_eq in E'. subst k. rewrite E. reflexivity.
      * reflexivity.
Qed.

Lemma listed_iff_key a (st : Storage) :
  In a (listProjectAppIds st) <-> hasKey (storageKey a) st = true.
Proof.
  unfold hasKey. induction st as [|[k w] st IH].
  - simpl. split; [intros []|discriminate].
  - cbn [listProjectAppIds existsb fst].
    destruct (String.prefix STORAGE_PREFIX k) eqn:P.
    + cbn [In]. rewrite IH, orb_true_iff. split.
      * intros [H|H]; [left|now right].
        apply String.eqb_eq. rewrite (prefix_slice _ _ P), H. reflexivity.
      * intros [H|H]; [left|now right].
        apply String.eqb_eq in H. rewrite H. apply slice_append.
    + rewrite IH. destruct (String.eqb k (storageKey a)) eqn:E.
      * apply String.eqb_eq in E. subst k.
        unfold storageKey in P. rewrite prefix_append in P. discriminate.
      * reflexivity.
Qed.

Section Json.
Context {AppStateRaw : Type}.
Variable stringify : ProjectRecord (AppStateRaw:=AppStateRaw) -> string.
Variable parse : string -> option (ProjectRecord (AppStateRaw:=AppStateRaw)).

Abbreviation saveProject := (saveProject stringify).
Abbreviation loadProject := (loadProject parse).

(** X20: a saved project loads back, whatever was stored before, when
    [JSON.stringify] gives a text that is not empty and [JSON.parse] reads
    it back; and saving the same project twice leaves the storage as saving
    it once. *)
Theorem saved_project_loads_back (project : ProjectRecord) (st : Storage) :
  stringify project <> EmptyString ->
  parse (stringify project) = Some project ->
  loadProject (appId project) (saveProject project st) = Some project
  /\ saveProject project (saveProject project st) = saveProject project st.
Proof.
  intros Hne Hp. split.
  - unfold ProjectStore.loadProject, ProjectStore.saveProject.
    rewrite getItem_setItem_same.
    destruct (stringify project); [congruence|exact Hp].
  - apply setItem_twice.
Qed.

(** X21: the projects of different games do not touch each other: saving
    or clearing the project of one game leaves what [loadProject] answers
    for every other game. *)
Theorem other_projects_are_untouched (project : ProjectRecord)
    (app cleared : string) (st : Storage) :
  (app <> appId project ->
   loadProject app (saveProject project st) = loadProject app st)
  /\ (app <> cleared ->
      loadProject app (clearProject cleared st) = loadProject app st).
Proof.
  split; intro Hne.
  - unfold ProjectStore.loadProject, ProjectStore.saveProject.
    rewrite getItem_setItem_other; [reflexivity|].
    intro K. now apply storageKey_inj in K.
  - unfold ProjectStore.loadProject, ProjectStore.clearProject.
    rewrite getItem_removeItem_other; [reflexivity|].
    intro K. now apply storageKey_inj in K.
Qed.

(** X22: [loadProject] answers null after [clearProject], when nothing is
    stored, when the stored text is empty and when [JSON.parse] throws; an
    answer that is not null is the parse of the stored text, which is not
    checked against the game asked for. *)
Theorem load_fails_quietly (app : string) (st : Storage) :
  loadProject app (clearProject app st) = None
  /\ (getItem (storageKey app) st = None -> loadProject app st = None)
  /\ (getItem (storageKey app) st = Some EmptyString ->
      loadProject app st = None)
  /\ (forall raw, getItem (storageKey app) st = Some raw ->
                  parse raw = None -> loadProject app st = None)
  /\ (forall project,
        loadProject app st = Some project ->
        exists raw, getItem (storageKey app) st = Some raw
                    /\ raw <> EmptyString /\ parse raw = Some project).
Proof.
  unfold ProjectStore.loadProject, ProjectStore.clearProject.
  split; [now rewrite getItem_removeItem_same|].
  split; [now intros ->|]. split; [now intros ->|]. split.
  - intros raw -> Hp. now destruct raw.
  - intros project H.
    destruct (getItem (storageKey app) st) as [[|c raw]|]; try discriminate.
    exists (String c raw). repeat split; [discriminate|exact H].
Qed.

(** X23: [listProjectAppIds] lists a game exactly when the storage has
    the key of its project, whatever is stored under it: a game is listed
    after [saveProject] and not after [clearProject], and the listing of
    the other games is the same before and after either. *)
Theorem listing_follows_the_keys (project : ProjectRecord)
    (app other : string) (st : Storage) :
  (In app (listProjectAppIds st) <-> hasKey (storageKey app) st = true)
  /\ In (appId project) (listProjectAppIds (saveProject project st))
  /\ ~ In app (listProjectAppIds (clearProject app st))
  /\ (other <> appId project ->
      (In other (listProjectAppIds (saveProject project st))
       <-> In other (listProjectAppIds st)))
  /\ (other <> app ->
      (In other (listProjectAppIds (clearProject app st))
       <-> In other (listProjectAppIds st))).
Proof.
  split; [apply listed_iff_key|]. split; [|split; [|split]].
  - apply listed_iff_key. unfold ProjectStore.saveProject.
    rewrite hasKey_setItem, String.eqb_refl. reflexivity.
  - rewrite listed_iff_key. unfold ProjectStore.clearProject.
    rewrite hasKey_removeItem, String.eqb_refl. discriminate.
  - intro Hne. rewrite !listed_iff_key. unfold ProjectStore.saveProject.
    rewrite hasKey_setItem.
    replace (String.eqb (storageKey other) (storageKey (appId project)))
      with false; [reflexivity|].
    symmetry. apply String.eqb_neq. intro K. now apply storageKey_inj in K.
  - intro Hne. rewrite !listed_iff_key. unfold ProjectStore.clearProject.
    rewrite hasKey_removeItem.
    replace (String.eqb (storageKey other) (storageKey app))
      with false; [reflexivity|].
    symmetry. apply String.eqb_neq. intro K. now apply storageKey_inj in K.
Qed.

End Json.

(** *** The theorems at a store of two games

    The projects have no app state and are written as their app id, which
    is read back as a project of that id. *)

(** X20 at the project of the maze, saved beside another entry. *)
Lemma saved_project_loads_back_witness :
  let stringify := fun p : ProjectRecord (AppStateRaw:=unit) => appId p in
  let parse := fun raw : string => Some (mkProject raw "" tt) in
  let project := mkProject "maze" "" tt in
  loadProject parse "maze" (saveProject stringify project [("theme", "dark")])
  = Some project
  /\ saveProject stringify project
       (saveProject stringify project [("theme", "dark")])
     = saveProject stringify project [("theme", "dark")].
Proof.
  apply (saved_project_loads_back
           (fun p : ProjectRecord (AppStateRaw:=unit) => appId p)
           (fun raw : string => Some (mkProject raw "" tt))
           (mkProject "maze" "" tt) [("theme", "dark")]).
  - discriminate.
  - reflexivity.
Defined.

(** X21 at the project of the maze, saved beside the project of the
    practice game. *)
Lemma other_projects_are_untouched_witness :
  let stringify := fun p : ProjectRecord (AppStateRaw:=unit) => appId p in
  let parse := fun raw : string => Some (mkProject raw "" tt) in
  loadProject parse "practice"
    (saveProject stringify (mkProject "maze" "" tt)
       [(storageKey "practice", "practice")])
  = loadProject parse "practice" [(storageKey "practice", "practice")].
Proof.
  apply (proj1 (other_projects_are_untouched
                  (fun p : ProjectRecord (AppStateRaw:=unit) => appId p)
                  (fun raw : string => Some (mkProject raw "" tt))
                  (mkProject "maze" "" tt) "practice" "maze"
                  [(storageKey "practice", "practice")])).
  discriminate.
Defined.

(** X22 at a store that holds the empty text for the maze. *)
Lemma load_fails_quietly_witness :
  loadProject (fun raw : string => Some (mkProject raw "" tt)) "maze"
    [(storageKey "maze", "")]
  = None.
Proof.
  apply (proj1 (proj2 (proj2 (load_fails_quietly
                                (fun raw : string => Some (mkProject raw "" tt))
                                "maze" [(storageKey "maze", "")])))).
  reflexivity.
Defined.

(** X23 at the project of the maze, saved beside the project of the
    practice game. *)
Lemma listing_follows_the_keys_witness :
  let stringify := fun p : ProjectRecord (AppStateRaw:=unit) => appId p in
  In "practice"
    (listProjectAppIds
       (saveProject stringify (mkProject "maze" "" tt)
          [(storageKey "practice", "practice")]))
  <-> In "practice" (listProjectAppIds [(storageKey "practice", "practice")]).
Proof.
  apply (proj1 (proj2 (proj2 (proj2
           (listing_follows_the_keys
              (fun p : ProjectRecord (AppStateRaw:=unit) => appId p)
              (mkProject "maze" "" tt) "maze" "practice"
              [(storageKey "practice", "practice")]))))).
  discriminate.
Defined.

End ProjectStoreFacts.
